(** * MoRo5: go-to-goal controller with a QP safety filter

    Shallow embedding of [simulate_control] from
    [code_implementation_5_3.py] and proofs about its components.

    Numbers.  The program computes with numpy float64.  The embedding
    idealises every finite float as a real number of [R]; an operation
    whose float result is not finite (a division by zero gives [inf] or
    [nan] under numpy, not an exception) returns [None].

    The QP solver.  [cvxopt.solvers.qp] is an external library; it is a
    parameter [qp] of every definition that calls it.  The properties of
    the loop hold for any [qp]; only the filter theorem assumes that [qp]
    returns a minimiser of cvxopt's documented objective.

    Buffers.  The history arrays are lists updated by index.  The loop
    only writes at indices below their length, where numpy and the list
    update agree.

    Plotting.  The calls to the visualiser and to matplotlib read the
    variables of the loop and change none of them; they are left out. *)

From Stdlib Require Import Reals Lra Lia ZArith List.
From stdpp Require Import base option list.

Open Scope R_scope.

(** ** Arrays *)

(** A numpy array of three floats: a pose [px, py, theta], an input
    [vx, vy, omega] or an obstacle [px_o, py_o, radius]. *)
Record arr3 : Type := A3 { at0 : R; at1 : R; at2 : R }.

(** A numpy array (or a 2x1 / 1x2 cvxopt matrix) of two floats. *)
Record arr2 : Type := A2 { fst2 : R; snd2 : R }.

(** A 2x2 matrix, by rows. *)
Record mat2 : Type := M2 { m00 : R; m01 : R; m10 : R; m11 : R }.

Definition zeros3 : arr3 := A3 0 0 0.
Definition zeros2 : arr2 := A2 0 0.

(** [a + b], [a - b], [k * a] of numpy, elementwise. *)
Definition add3 (a b : arr3) : arr3 :=
  A3 (at0 a + at0 b) (at1 a + at1 b) (at2 a + at2 b).
Definition sub3 (a b : arr3) : arr3 :=
  A3 (at0 a - at0 b) (at1 a - at1 b) (at2 a - at2 b).
Definition scale3 (k : R) (a : arr3) : arr3 :=
  A3 (k * at0 a) (k * at1 a) (k * at2 a).
Definition scale2 (k : R) (a : arr2) : arr2 :=
  A2 (k * fst2 a) (k * snd2 a).

(** [a[:2]]. *)
Definition head2 (a : arr3) : arr2 := A2 (at0 a) (at1 a).

Definition sub2 (a b : arr2) : arr2 := A2 (fst2 a - fst2 b) (snd2 a - snd2 b).
Definition dot2 (a b : arr2) : R := fst2 a * fst2 b + snd2 a * snd2 b.

(** [np.sum(a**2)]. *)
Definition sumsq2 (a : arr2) : R := fst2 a ^ 2 + snd2 a ^ 2.

(** [np.linalg.norm(a)]. *)
Definition norm2 (a : arr2) : R := sqrt (sumsq2 a).

(** ** Float operations that can leave the reals *)

(** [x / y] on floats: finite only for a nonzero divisor. *)
Definition fdiv (x y : R) : option R :=
  if Req_dec_T y 0 then None else Some (x / y).

(** [x % m] of Python and numpy for a positive modulus: the result has
    the sign of [m], [x - m * floor (x / m)]. *)
Definition fmod (x m : R) : R := x - IZR (Int_part (x / m)) * m.

(** ** Constants and settings *)

Definition Ts : R := 0.01.
Definition t_max : R := PI * 3.

Definition init_state : arr3 := A3 (-2) (-0.5) 0.
Definition obstacle_state : arr3 := A3 0 0 0.5.

Definition v_trans_max : R := 0.5.
Definition v_rot_max : R := 5.
Definition robot_radius : R := 0.21.
Definition d_safe : R := at2 obstacle_state + robot_radius + 0.001.

Definition beta : R := 5.
Definition gamma : R := 10.

Definition desired_state : arr3 := A3 2 1 0.

(** [round(x)] of Python on a float: the nearest integer, a tie going to
    the even neighbour. *)
Definition py_round (x : R) : Z :=
  let f := Int_part x in
  if Rlt_dec (frac_part x) (1 / 2) then f
  else if Rlt_dec (1 / 2) (frac_part x) then (f + 1)%Z
  else if Z.even f then f else (f + 1)%Z.

(** Total number of simulation steps, [round(t_max / Ts)]. *)
Definition sim_iter : nat := Z.to_nat (py_round (t_max / Ts)).

(** ** Goal-seeking policy (lines 69-76) *)

(** [(a + np.pi) % (2 * np.pi) - np.pi]. *)
Definition wrap_angle (a : R) : R := fmod (a + PI) (2 * PI) - PI.

(** [error], after its heading component has been wrapped in place. *)
Definition error (robot_state : arr3) : arr3 :=
  let e := sub3 desired_state robot_state in
  A3 (at0 e) (at1 e) (wrap_angle (at2 e)).

Definition error_norm (robot_state : arr3) : R :=
  norm2 (head2 (error robot_state)).

(** The gain as a function of the distance [r] to the goal. *)
Definition gain (r : R) : option R :=
  fdiv (v_trans_max * (1 - exp (- beta * r))) (r + 1e-10).

Definition K_g (robot_state : arr3) : option R :=
  gain (error_norm robot_state).

(** The quotient of [gain] as a real function, and the nominal input
    [K_g * error] it gives. *)
Definition K (r : R) : R :=
  v_trans_max * (1 - exp (- beta * r)) / (r + 1e-10).

Definition nominal (robot_state : arr3) : arr3 :=
  scale3 (K (error_norm robot_state)) (error robot_state).

(** [f r] tends to [l] as [r] grows, and as [r > 0] shrinks to zero. *)
Definition tends_to_at_infinity (f : R -> R) (l : R) : Prop :=
  forall eps, 0 < eps -> exists M, forall r, M < r -> Rabs (f r - l) < eps.

Definition tends_to_at_zero (f : R -> R) (l : R) : Prop :=
  forall eps, 0 < eps ->
    exists eta, 0 < eta /\ forall r, 0 < r < eta -> Rabs (f r - l) < eps.

(** The branch on [error_norm >= 0.005]: [Some u_gtg], or [None] for the
    [break]. *)
Definition u_gtg (k : R) (robot_state : arr3) : option arr3 :=
  if Rle_dec 0.005 (error_norm robot_state)
  then Some (scale3 k (error robot_state))
  else None.

(** ** QP-based controller (lines 80-92) *)

Definition eye2 : mat2 := M2 1 0 0 1.
Definition scale_mat (k : R) (m : mat2) : mat2 :=
  M2 (k * m00 m) (k * m01 m) (k * m10 m) (k * m11 m).

Definition Q_mat : mat2 := scale_mat 2 eye2.
Definition c_mat (u : arr3) : arr2 := scale2 (-2) (head2 u).

Definition vector_to_obstacle (robot_state : arr3) : arr2 :=
  sub2 (head2 robot_state) (head2 obstacle_state).

(** The 1x2 row [H] and the scalar [b] of the constraint [H v <= b]. *)
Definition H (robot_state : arr3) : arr2 :=
  scale2 (-2) (vector_to_obstacle robot_state).
Definition b (robot_state : arr3) : R :=
  gamma * (sumsq2 (vector_to_obstacle robot_state) - d_safe ^ 2).

(** The barrier function of the obstacle, [h(p) = |p - o|^2 - d_safe^2]. *)
Definition barrier (robot_state : arr3) : R :=
  sumsq2 (vector_to_obstacle robot_state) - d_safe ^ 2.

(** [v^T Q v]. *)
Definition quad (Q : mat2) (v : arr2) : R :=
  fst2 v * (m00 Q * fst2 v + m01 Q * snd2 v)
  + snd2 v * (m10 Q * fst2 v + m11 Q * snd2 v).

(** The objective that [cvxopt.solvers.qp(P, q, G, h)] minimises,
    [(1/2) x^T P x + q^T x], subject to [G x <= h]. *)
Definition qp_objective (Q : mat2) (c v : arr2) : R :=
  1 / 2 * quad Q v + dot2 c v.

Definition qp_feasible (G : arr2) (h : R) (v : arr2) : Prop :=
  dot2 G v <= h.

(** [v] minimises cvxopt's objective over the half plane [G x <= h]. *)
Definition qp_minimizer (Q : mat2) (c G : arr2) (h : R) (v : arr2) : Prop :=
  qp_feasible G h v /\
  forall w, qp_feasible G h w -> qp_objective Q c v <= qp_objective Q c w.

(** What the program needs of a solver: on the problems it is given
    (with [Q_mat] and a feasible half plane) it returns a minimiser. *)
Definition qp_solver (qp : mat2 -> arr2 -> arr2 -> R -> arr2) : Prop :=
  forall c G h, (exists w, qp_feasible G h w) ->
    qp_minimizer Q_mat c G h (qp Q_mat c G h).

(** The objective as section 4.3 of the specification words it,
    [v^T Q v + c^T v], without the factor one half. *)
Definition spec_objective (Q : mat2) (c v : arr2) : R :=
  quad Q v + dot2 c v.

(** The exact solution of the program's problem in closed form: the
    projection of [u = - c / 2] on the half plane [G x <= h]. *)
Definition qp_exact (Q : mat2) (c G : arr2) (h : R) : arr2 :=
  let u := scale2 (- (1 / 2)) c in
  if Rle_dec (dot2 G u) h then u
  else sub2 u (scale2 ((dot2 G u - h) / sumsq2 G) G).

(** ** Actuator limits (lines 95-98) *)

(** [v_ratio = current_input[0] / (current_input[2] + current_input[1])]. *)
Definition v_ratio (u : arr3) : option R := fdiv (at0 u) (at2 u + at1 u).

(** The four in-place assignments to [current_input]. *)
Definition limit_input (u : arr3) : option arr3 :=
  r ← v_ratio u;
  vy ← fdiv 0.5 (sqrt (1 + r ^ 2));
  Some (A3 (r * vy) vy (Rmin (at2 u) (5 * Ts))).

(** ** State update (lines 114-115) *)

Definition update_state (robot_state current_input : arr3) : arr3 :=
  let s := add3 robot_state (scale3 Ts current_input) in
  A3 (at0 s) (at1 s) (wrap_angle (at2 s)).

(** ** The simulation loop (lines 36-123) *)

(** The variables of [simulate_control] that the loop reads and writes.
    The history buffers are the pre-allocated [np.zeros] arrays, one row
    per step. *)
Record sim : Type := Sim {
  robot_state : arr3;
  current_input : arr3;
  state_history : list arr3;
  goal_history : list arr3;
  input_history : list arr3;
  error_history : list arr3;
  h_history : list arr2
}.

(** The variables before the first iteration, for [n] simulation steps. *)
Definition init_sim (start : arr3) (n : nat) : sim :=
  Sim start zeros3
      (replicate n zeros3) (replicate n zeros3) (replicate n zeros3)
      (replicate n zeros3) (replicate n zeros2).

(** How one iteration of the loop ends: with [break], by falling through
    to the next iteration, or with a value that is not finite.  Under
    numpy the last case does not raise: the step completes with [nan]
    entries, and the next iteration breaks because [nan >= 0.005] is
    false.  The embedding stops at the first value that is not finite and
    keeps the variables as they stand there. *)
Inductive step : Type :=
  | Break (s : sim)
  | Next (s : sim)
  | NonFinite (s : sim).

(** The terminal states of the loop. *)
Inductive status : Type :=
  | GOAL_REACHED (it : nat)
  | ITERATION_LIMIT_REACHED
  | NOT_FINITE (it : nat).

Section Loop.

(** [cvxopt.solvers.qp(Q_mat, c_mat, H_mat, b_mat)], reduced to
    [sol['x']]. *)
Variable qp : mat2 -> arr2 -> arr2 -> R -> arr2.

(** [current_input] as line 92 builds it from the nominal input. *)
Definition qp_input (u : arr3) (rs : arr3) : arr3 :=
  let sol := qp Q_mat (c_mat u) (H rs) (b rs) in
  A3 (fst2 sol) (snd2 sol) 0.

(** Lines 63-64: [state_history[it]] and [goal_history[it]]. *)
Definition record_state (it : nat) (s : sim) : sim :=
  Sim (robot_state s) (current_input s)
      (<[it := robot_state s]> (state_history s))
      (<[it := desired_state]> (goal_history s))
      (input_history s) (error_history s) (h_history s).

(** Lines 102-104 and 114-115: the three records of the computed
    input [ci], then the new state. *)
Definition record_input (it : nat) (ci : arr3) (s : sim) : sim :=
  Sim (update_state (robot_state s) ci) ci
      (state_history s) (goal_history s)
      (<[it := ci]> (input_history s))
      (<[it := error (robot_state s)]> (error_history s))
      (<[it := H (robot_state s)]> (h_history s)).

(** The body of [for it in range(sim_iter)]. *)
Definition loop_body (it : nat) (s : sim) : step :=
  let s1 := record_state it s in
  let rs := robot_state s1 in
  match K_g rs with
  | None => NonFinite s1
  | Some k =>
    match u_gtg k rs with
    | None => Break s1
    | Some u =>
      match limit_input (qp_input u rs) with
      | None => NonFinite s1
      | Some ci => Next (record_input it ci s1)
      end
    end
  end.

(** [for it in its: ...], with the status the loop ends in. *)
Fixpoint for_range (its : list nat) (s : sim) : status * sim :=
  match its with
  | [] => (ITERATION_LIMIT_REACHED, s)
  | it :: rest =>
    match loop_body it s with
    | Break s' => (GOAL_REACHED it, s')
    | NonFinite s' => (NOT_FINITE it, s')
    | Next s' => for_range rest s'
    end
  end.

(** The run from [start] for [n] steps. *)
Definition simulate_from (start : arr3) (n : nat) : status * sim :=
  for_range (seq 0 n) (init_sim start n).

(** [simulate_control()], with the four arrays it returns. *)
Definition simulate_control : list arr3 * list arr3 * list arr3 * list arr2 :=
  let s := snd (simulate_from init_state sim_iter) in
  (state_history s, goal_history s, input_history s, h_history s).

End Loop.

(** The invariant of the loop: the heading is [theta0], and the current
    input and every row of [input_history] have angular rate zero; every
    row of [state_history] is still zero or has heading [theta0]. *)
Definition heading_inv (theta0 : R) (s : sim) : Prop :=
  at2 (robot_state s) = theta0 /\
  at2 (current_input s) = 0 /\
  Forall (fun ci => at2 ci = 0) (input_history s) /\
  Forall (fun p => p = zeros3 \/ at2 p = theta0) (state_history s).

(** ** The script around [simulate_control] (lines 126-132) *)

(** The time axis of the plots,
    [t = [i * Ts for i in range(round(t_max / Ts))]]. *)
Definition time_axis : list R := map (fun i => INR i * Ts) (seq 0 sim_iter).

(** ** Vocabulary for the run *)

(** Every buffer has [n] rows. *)
Definition buffers_length (n : nat) (s : sim) : Prop :=
  length (state_history s) = n /\ length (goal_history s) = n /\
  length (input_history s) = n /\ length (error_history s) = n /\
  length (h_history s) = n.

(** The iterations that were entered (lines 63-64 ran), and those that
    ran to their end, in a loop of [n] iterations that ended in [st]. *)
Definition ticks_started (st : status) (n : nat) : nat :=
  match st with
  | GOAL_REACHED it => S it
  | NOT_FINITE it => S it
  | ITERATION_LIMIT_REACHED => n
  end.

Definition ticks_completed (st : status) (n : nat) : nat :=
  match st with
  | GOAL_REACHED it => it
  | NOT_FINITE it => it
  | ITERATION_LIMIT_REACHED => n
  end.

(** The variables after [a] completed iterations with buffers of [n]
    rows: each row below [a] holds what its iteration computed from the
    state recorded there, consecutive states are linked by the update,
    and the rows from [a] on are still zero. *)
Definition trace_inv (qp : mat2 -> arr2 -> arr2 -> R -> arr2)
    (n a : nat) (s : sim) : Prop :=
  buffers_length n s /\
  (forall i p, (i < a)%nat -> state_history s !! i = Some p ->
     0.005 <= error_norm p /\
     exists u,
       limit_input (qp_input qp (nominal p) p) = Some u /\
       input_history s !! i = Some u /\
       error_history s !! i = Some (error p) /\
       h_history s !! i = Some (H p) /\
       goal_history s !! i = Some desired_state /\
       ((S i < a)%nat -> state_history s !! S i = Some (update_state p u)) /\
       (S i = a -> robot_state s = update_state p u)) /\
  (forall j, (a <= j)%nat -> (j < n)%nat ->
     state_history s !! j = Some zeros3 /\
     goal_history s !! j = Some zeros3 /\
     input_history s !! j = Some zeros3 /\
     error_history s !! j = Some zeros3 /\
     h_history s !! j = Some zeros2).

(** * Properties *)

(** ** Float operations *)

Lemma fdiv_Some (x y : R) : y <> 0 -> fdiv x y = Some (x / y).
Proof.
  intros Hy. unfold fdiv. destruct (Req_dec_T y 0) as [E | _]; [contradiction | reflexivity].
Qed.

Lemma fdiv_None (x y : R) : fdiv x y = None <-> y = 0.
Proof.
  unfold fdiv. destruct (Req_dec_T y 0) as [E | N]; split; intros; congruence.
Qed.

Lemma fmod_range (x m : R) : 0 < m -> 0 <= fmod x m < m.
Proof.
  intros Hm. unfold fmod.
  destruct (base_Int_part (x / m)) as [Hlo Hhi].
  assert (E : x = x / m * m) by (field; lra).
  set (q := IZR (Int_part (x / m))) in *.
  split.
  - assert (q * m <= x / m * m) by (apply Rmult_le_compat_r; lra). lra.
  - assert (x / m * m < (q + 1) * m) by (apply Rmult_lt_compat_r; lra). lra.
Qed.

Lemma fmod_eq (x m : R) : exists k : Z, fmod x m = x - IZR k * m.
Proof. exists (Int_part (x / m)). reflexivity. Qed.

Lemma fmod_small (x m : R) : 0 <= x < m -> fmod x m = x.
Proof.
  intros [Hx Hm]. unfold fmod.
  assert (Hq : 0 <= x / m < 1).
  { split.
    - apply Rmult_le_pos; [lra | left; apply Rinv_0_lt_compat; lra].
    - apply Rmult_lt_reg_r with m; [lra |].
      replace (x / m * m) with x by (field; lra). lra. }
  rewrite <- (Int_part_spec (x / m) 0); simpl; lra.
Qed.

Lemma fmod_self (m : R) : 0 < m -> fmod m m = 0.
Proof.
  intros Hm. unfold fmod.
  replace (m / m) with 1 by (field; lra).
  rewrite <- (Int_part_spec 1 1); simpl; lra.
Qed.

(** ** The number of steps *)

Lemma PI_bounds : 3.1415 < PI < 3.1416.
Proof.
  destruct (PI_2_3_7_ineq 2) as [Hlo Hhi].
  unfold sum_f_R0, tg_alt, PI_2_3_7_tg, Ratan_seq in Hlo, Hhi.
  simpl in Hlo, Hhi. lra.
Qed.

(** [round(t_max / Ts)] is 942: the quotient is [300 PI], about 942.48. *)
Lemma sim_iter_value : sim_iter = 942%nat.
Proof.
  assert (Hpi := PI_bounds).
  assert (Hq : 942.45 < t_max / Ts < 942.48) by (unfold t_max, Ts; lra).
  assert (Hi : Int_part (t_max / Ts) = 942%Z)
    by (symmetry; apply Int_part_spec; simpl; lra).
  unfold sim_iter, py_round, frac_part. rewrite Hi.
  destruct (Rlt_dec (t_max / Ts - IZR 942) (1 / 2)) as [_ | Hn]; [reflexivity |].
  exfalso. apply Hn. simpl. lra.
Qed.

(** ** Heading wrap *)

Lemma wrap_angle_range (a : R) : - PI <= wrap_angle a < PI.
Proof.
  unfold wrap_angle.
  assert (Hpi := PI_RGT_0).
  destruct (fmod_range (a + PI) (2 * PI)) as [Hlo Hhi]; lra.
Qed.

Lemma wrap_angle_congr (a : R) : exists k : Z, wrap_angle a = a - IZR k * (2 * PI).
Proof.
  unfold wrap_angle. destruct (fmod_eq (a + PI) (2 * PI)) as [k Hk].
  exists k. rewrite Hk. ring.
Qed.

Lemma wrap_angle_id (a : R) : - PI <= a < PI -> wrap_angle a = a.
Proof.
  intros Ha. unfold wrap_angle. rewrite fmod_small; lra.
Qed.

Lemma wrap_angle_PI : wrap_angle PI = - PI.
Proof.
  unfold wrap_angle. assert (Hpi := PI_RGT_0).
  replace (PI + PI) with (2 * PI) by ring.
  rewrite fmod_self; lra.
Qed.

Lemma wrap_angle_0 : wrap_angle 0 = 0.
Proof. apply wrap_angle_id. assert (Hpi := PI_RGT_0). lra. Qed.

(** ** Norms *)

Lemma sumsq2_nonneg (a : arr2) : 0 <= sumsq2 a.
Proof. unfold sumsq2. nra. Qed.

Lemma norm2_nonneg (a : arr2) : 0 <= norm2 a.
Proof. apply sqrt_positivity, sumsq2_nonneg. Qed.

Lemma norm2_sqr (a : arr2) : norm2 a * norm2 a = sumsq2 a.
Proof. apply sqrt_sqrt, sumsq2_nonneg. Qed.

Lemma norm2_eq (a : arr2) (n : R) : 0 <= n -> sumsq2 a = n * n -> norm2 a = n.
Proof.
  intros Hn Hs. unfold norm2. apply sqrt_lem_1; [apply sumsq2_nonneg | exact Hn | lra].
Qed.

Lemma norm2_ge (a : arr2) (n : R) : 0 <= n -> n * n <= sumsq2 a -> n <= norm2 a.
Proof.
  intros Hn Hs. assert (H0 := norm2_nonneg a). assert (H1 := norm2_sqr a).
  destruct (Rle_lt_dec n (norm2 a)) as [|Hlt]; [assumption | nra].
Qed.

Lemma norm2_lt (a : arr2) (n : R) : 0 < n -> sumsq2 a < n * n -> norm2 a < n.
Proof.
  intros Hn Hs. assert (H0 := norm2_nonneg a). assert (H1 := norm2_sqr a).
  destruct (Rle_lt_dec n (norm2 a)) as [Hle|]; [nra | assumption].
Qed.

Lemma norm2_pos (a : arr2) : snd2 a <> 0 -> 0 < norm2 a.
Proof.
  intros Hy. apply sqrt_lt_R0. unfold sumsq2. nra.
Qed.

(** ** Actuator limits *)

Lemma sqrt_ratio_pos (r : R) : 0 < sqrt (1 + r ^ 2).
Proof. apply sqrt_lt_R0. nra. Qed.

(** The value of the limiter wherever its first division is defined. *)
Lemma limit_input_Some (u : arr3) :
  at2 u + at1 u <> 0 ->
  limit_input u =
    Some (A3 (at0 u / (at2 u + at1 u) * (0.5 / sqrt (1 + (at0 u / (at2 u + at1 u)) ^ 2)))
             (0.5 / sqrt (1 + (at0 u / (at2 u + at1 u)) ^ 2))
             (Rmin (at2 u) (5 * Ts))).
Proof.
  intros Hd. unfold limit_input, v_ratio. rewrite (fdiv_Some _ _ Hd).
  cbn [mbind option_bind].
  assert (Hs := sqrt_ratio_pos (at0 u / (at2 u + at1 u))).
  rewrite fdiv_Some by lra. reflexivity.
Qed.

Lemma limit_input_None (u : arr3) : at2 u + at1 u = 0 -> limit_input u = None.
Proof.
  intros Hd. unfold limit_input, v_ratio.
  destruct (fdiv_None (at0 u) (at2 u + at1 u)) as [_ E]. rewrite (E Hd). reflexivity.
Qed.

Lemma rescaled_sumsq (r q : R) :
  0 < q -> q * q = 1 + r ^ 2 ->
  (r * (0.5 / q)) ^ 2 + (0.5 / q) ^ 2 = 0.5 * 0.5.
Proof.
  intros Hq E.
  assert (Hr : r ^ 2 = q * q - 1) by lra.
  replace ((r * (0.5 / q)) ^ 2 + (0.5 / q) ^ 2)
    with ((r ^ 2 + 1) * (0.5 * 0.5) / (q * q)) by (field; lra).
  rewrite Hr. field. lra.
Qed.

(** Every output of the limiter has speed 0.5 and a positive [vy]. *)
Lemma limit_input_speed (u ci : arr3) :
  limit_input u = Some ci -> norm2 (head2 ci) = 0.5 /\ 0 < at1 ci.
Proof.
  intros E. destruct (Req_dec_T (at2 u + at1 u) 0) as [Hz | Hnz].
  - rewrite (limit_input_None u Hz) in E. discriminate.
  - rewrite (limit_input_Some u Hnz) in E. injection E as <-.
    set (r := at0 u / (at2 u + at1 u)).
    assert (Hs := sqrt_ratio_pos r).
    assert (Hq : sqrt (1 + r ^ 2) * sqrt (1 + r ^ 2) = 1 + r ^ 2)
      by (apply sqrt_sqrt; nra).
    split.
    + apply norm2_eq; [lra |]. unfold sumsq2, head2. cbn [fst2 snd2 at0 at1].
      apply rescaled_sumsq; assumption.
    + cbn [at1]. apply Rdiv_lt_0_compat; [lra | exact Hs].
Qed.

(** The limiter keeps the angular rate of the QP stage, zero. *)
Lemma limit_input_omega (u ci : arr3) :
  at2 u = 0 -> limit_input u = Some ci -> at2 ci = 0.
Proof.
  intros Hw E. destruct (Req_dec_T (at2 u + at1 u) 0) as [Hz | Hnz].
  - rewrite (limit_input_None u Hz) in E. discriminate.
  - rewrite (limit_input_Some u Hnz) in E. injection E as <-. simpl.
    rewrite Hw. apply Rmin_left. unfold Ts. lra.
Qed.

(** On a QP output with [0 < vy] the limiter multiplies [vx] and [vy] by
    the same positive factor, [0.5 / norm2 (vx, vy)]. *)
Lemma limit_input_scaling (vx vy : R) :
  0 < vy ->
  limit_input (A3 vx vy 0) =
    Some (A3 (0.5 / norm2 (A2 vx vy) * vx) (0.5 / norm2 (A2 vx vy) * vy) 0).
Proof.
  intros Hvy.
  assert (Hn : 0 < norm2 (A2 vx vy)) by (apply norm2_pos; simpl; lra).
  assert (Hn2 := norm2_sqr (A2 vx vy)). unfold sumsq2 in Hn2. simpl in Hn2.
  rewrite limit_input_Some by (simpl; lra).
  cbn [at0 at1 at2].
  replace (0 + vy) with vy by ring.
  assert (Hq : sqrt (1 + (vx / vy) ^ 2) = norm2 (A2 vx vy) / vy).
  { apply sqrt_lem_1.
    - nra.
    - apply Rmult_le_pos; [lra | left; apply Rinv_0_lt_compat; lra].
    - replace (norm2 (A2 vx vy) / vy * (norm2 (A2 vx vy) / vy))
        with (norm2 (A2 vx vy) * norm2 (A2 vx vy) / (vy * vy)) by (field; lra).
      replace (norm2 (A2 vx vy) * norm2 (A2 vx vy)) with (vx * (vx * 1) + vy * (vy * 1)) by lra.
      field. lra. }
  rewrite Hq. f_equal. f_equal.
  - field. lra.
  - field. lra.
  - apply Rmin_left. unfold Ts. lra.
Qed.

(** C1, at an input below the limit: the speed of (0.03, 0.04) is 0.05,
    under the limit 0.5, and the limiter returns (0.3, 0.4), not the
    pair it was given. *)
Lemma limiter_changes_slow_input :
  norm2 (A2 0.03 0.04) <= v_trans_max /\
  limit_input (A3 0.03 0.04 0) = Some (A3 0.3 0.4 0) /\
  A3 0.3 0.4 0 <> A3 0.03 0.04 0.
Proof.
  assert (Hn : norm2 (A2 0.03 0.04) = 0.05).
  { apply norm2_eq; [lra |]. unfold sumsq2; simpl. lra. }
  split; [| split].
  - rewrite Hn. unfold v_trans_max. lra.
  - rewrite limit_input_scaling by lra. rewrite Hn. f_equal. f_equal; lra.
  - intros E. injection E as E0 E1. lra.
Qed.

(** C1, as the code has it: a QP output with [0 < vy] is multiplied by
    the positive factor [v_trans_max / norm2 (vx, vy)], whatever its
    speed, so the output keeps the direction and has speed exactly
    [v_trans_max]; and wherever the division of the limiter is defined
    ([vy <> 0]) the output speed is [v_trans_max], within the limit. *)
Theorem limiter_normalises_speed (vx vy : R) :
  vy <> 0 ->
  exists ci, limit_input (A3 vx vy 0) = Some ci /\
    norm2 (head2 ci) = v_trans_max /\
    norm2 (head2 ci) <= v_trans_max /\
    (0 < vy ->
     0 < v_trans_max / norm2 (A2 vx vy) /\
     head2 ci = scale2 (v_trans_max / norm2 (A2 vx vy)) (A2 vx vy)).
Proof.
  intros Hvy.
  assert (Hd : at2 (A3 vx vy 0) + at1 (A3 vx vy 0) <> 0) by (simpl; lra).
  destruct (limit_input (A3 vx vy 0)) as [ci |] eqn:E;
    [| rewrite (limit_input_Some _ Hd) in E; discriminate].
  exists ci. split; [reflexivity |].
  destruct (limit_input_speed _ _ E) as [Hs _].
  unfold v_trans_max. split; [exact Hs | split; [rewrite Hs; lra |]].
  intros Hpos.
  assert (Hn : 0 < norm2 (A2 vx vy)) by (apply norm2_pos; simpl; lra).
  split; [apply Rdiv_lt_0_compat; lra |].
  rewrite (limit_input_scaling vx vy Hpos) in E. injection E as <-.
  reflexivity.
Qed.

Lemma limiter_normalises_speed_witness :
  exists ci, limit_input (A3 0.03 0.04 0) = Some ci /\
    norm2 (head2 ci) = v_trans_max /\
    norm2 (head2 ci) <= v_trans_max /\
    (0 < 0.04 ->
     0 < v_trans_max / norm2 (A2 0.03 0.04) /\
     head2 ci = scale2 (v_trans_max / norm2 (A2 0.03 0.04)) (A2 0.03 0.04)).
Proof. apply (limiter_normalises_speed 0.03 0.04). lra. Defined.

(** C8: the limiter computes [vx / (omega + vy)] with no guard, and it
    has a result exactly when [vy + omega <> 0]; its second division, by
    [sqrt (1 + v_ratio^2)], never fails. *)
Theorem limiter_defined_iff (u : arr3) :
  v_ratio u = fdiv (at0 u) (at2 u + at1 u) /\
  (limit_input u = None <-> at1 u + at2 u = 0) /\
  (is_Some (limit_input u) <-> at1 u + at2 u <> 0).
Proof.
  split; [reflexivity |].
  destruct (Req_dec_T (at2 u + at1 u) 0) as [Hz | Hnz].
  - rewrite (limit_input_None u Hz). split; split; intros; try lra; try reflexivity.
    + destruct H0 as [x Hx]. discriminate.
  - rewrite (limit_input_Some u Hnz). split; split; intros; try lra; try discriminate.
    + eexists; reflexivity.
Qed.

(** ** State update *)

(** C2, at a heading of [PI]: the wrap sends it to [- PI], outside the
    interval that is open at [- PI] and closed at [PI]. *)
Lemma heading_pi_wraps_to_minus_pi :
  at2 (update_state (A3 0 0 PI) zeros3) = - PI /\
  ~ (- PI < at2 (update_state (A3 0 0 PI) zeros3) <= PI).
Proof.
  assert (E : at2 (update_state (A3 0 0 PI) zeros3) = - PI).
  { unfold update_state, add3, scale3, zeros3. cbn [at0 at1 at2].
    replace (PI + Ts * 0) with PI by ring. apply wrap_angle_PI. }
  split; [exact E |]. rewrite E. lra.
Qed.

(** The update of one state by one input: Euler on the three
    components, the heading then reduced modulo [2 PI] into the interval
    closed at [- PI] and open at [PI]. *)
Lemma update_state_spec (p u : arr3) :
  at0 (update_state p u) = at0 p + Ts * at0 u /\
  at1 (update_state p u) = at1 p + Ts * at1 u /\
  at2 (update_state p u) = wrap_angle (at2 p + Ts * at2 u) /\
  (exists k : Z, at2 (update_state p u) = at2 p + Ts * at2 u - IZR k * (2 * PI)) /\
  - PI <= at2 (update_state p u) < PI.
Proof.
  unfold update_state, add3, scale3. cbn [at0 at1 at2].
  repeat split; try reflexivity;
    try apply wrap_angle_congr; apply wrap_angle_range.
Qed.

(** ** Safety constraint *)

Lemma d_safe_value : d_safe = 0.711.
Proof. unfold d_safe, obstacle_state, robot_radius. simpl. lra. Qed.

(** C3: for every state, the row is [H = -2 Delta] and the bound is
    [b = gamma (|Delta|^2 - d_safe^2)], with [Delta] the vector from the
    obstacle centre to the robot; both are functions of the current
    state alone, they are what the loop hands to the solver, and
    [H v <= b] is the barrier condition [2 Delta . v >= - gamma h(p)]. *)
Theorem constraint_from_state (qp : mat2 -> arr2 -> arr2 -> R -> arr2) (u p : arr3) :
  let Delta := A2 (at0 p - at0 obstacle_state) (at1 p - at1 obstacle_state) in
  vector_to_obstacle p = Delta /\
  H p = A2 (-2 * fst2 Delta) (-2 * snd2 Delta) /\
  b p = gamma * (sumsq2 Delta - d_safe ^ 2) /\
  b p = gamma * barrier p /\
  qp_input qp u p =
    A3 (fst2 (qp Q_mat (c_mat u) (A2 (-2 * fst2 Delta) (-2 * snd2 Delta))
                 (gamma * (sumsq2 Delta - d_safe ^ 2))))
       (snd2 (qp Q_mat (c_mat u) (A2 (-2 * fst2 Delta) (-2 * snd2 Delta))
                 (gamma * (sumsq2 Delta - d_safe ^ 2)))) 0 /\
  (forall v, qp_feasible (H p) (b p) v <-> - gamma * barrier p <= 2 * dot2 Delta v).
Proof.
  cbv zeta. repeat split; unfold qp_feasible, H, b, barrier, vector_to_obstacle,
    sub2, scale2, head2, dot2; cbn [fst2 snd2 at0 at1]; intros; lra.
Qed.

(** ** QP safety filter *)

(** With [Q_mat] and [c_mat u], cvxopt's objective is the squared
    distance to the nominal velocity, up to a constant. *)
Lemma qp_objective_distance (c v : arr2) :
  qp_objective Q_mat c v =
    sumsq2 (sub2 v (scale2 (- (1 / 2)) c)) - sumsq2 (scale2 (- (1 / 2)) c).
Proof.
  unfold qp_objective, quad, Q_mat, scale_mat, eye2, sumsq2, sub2, scale2, dot2.
  cbn [m00 m01 m10 m11 fst2 snd2]. field.
Qed.

Lemma c_mat_half (u : arr3) : scale2 (- (1 / 2)) (c_mat u) = head2 u.
Proof.
  unfold c_mat, scale2, head2. cbn [fst2 snd2]. f_equal; field.
Qed.

Lemma sumsq2_zero (a : arr2) : sumsq2 a <= 0 -> a = zeros2.
Proof.
  destruct a as [x y]. unfold sumsq2, zeros2. cbn [fst2 snd2]. intros Hs.
  assert (x = 0) by nra. assert (y = 0) by nra. subst. reflexivity.
Qed.

Lemma sub2_zero (a c : arr2) : sub2 a c = zeros2 -> a = c.
Proof.
  destruct a as [x y], c as [x' y']. unfold sub2, zeros2. cbn [fst2 snd2].
  intros E. injection E as E0 E1. f_equal; lra.
Qed.

(** A minimiser over a half plane that contains [- c / 2] is [- c / 2]. *)
Lemma qp_minimizer_inactive (c G v : arr2) (h : R) :
  qp_feasible G h (scale2 (- (1 / 2)) c) ->
  qp_minimizer Q_mat c G h v -> v = scale2 (- (1 / 2)) c.
Proof.
  intros Hu [_ Hmin]. specialize (Hmin _ Hu).
  rewrite !qp_objective_distance in Hmin.
  apply sub2_zero, sumsq2_zero.
  assert (E : sumsq2 (sub2 (scale2 (- (1 / 2)) c) (scale2 (- (1 / 2)) c)) = 0).
  { unfold sumsq2, sub2. cbn [fst2 snd2]. ring. }
  lra.
Qed.

(** The closed form [qp_exact] is a solver in the sense of [qp_solver]. *)
Lemma qp_exact_solver : qp_solver qp_exact.
Proof.
  intros c G h [w0 Hw0]. unfold qp_exact.
  set (u := scale2 (- (1 / 2)) c).
  destruct (Rle_dec (dot2 G u) h) as [Hin | Hout].
  - split; [exact Hin |]. intros w _. rewrite !qp_objective_distance.
    fold u. assert (E : sumsq2 (sub2 u u) = 0)
      by (unfold sumsq2, sub2; cbn [fst2 snd2]; ring).
    assert (Hw := sumsq2_nonneg (sub2 w u)). lra.
  - assert (Hg : 0 < sumsq2 G).
    { destruct (Rle_lt_dec (sumsq2 G) 0) as [Hz | Hp]; [| exact Hp].
      apply sumsq2_zero in Hz. subst G. exfalso. apply Hout.
      unfold qp_feasible, dot2, zeros2 in *. cbn [fst2 snd2] in *. lra. }
    set (l := (dot2 G u - h) / sumsq2 G).
    assert (Hl : 0 < l) by (apply Rdiv_lt_0_compat; lra).
    assert (Hp : dot2 G (sub2 u (scale2 l G)) = h).
    { unfold dot2, sub2, scale2, sumsq2 in *. cbn [fst2 snd2] in *.
      subst l. field. lra. }
    split; [unfold qp_feasible; lra |].
    intros w Hw. rewrite !qp_objective_distance. fold u.
    unfold qp_feasible in Hw.
    destruct G as [g0 g1], u as [u0 u1], w as [w0' w1].
    unfold dot2, sub2, scale2, sumsq2 in *. cbn [fst2 snd2] in *.
    clearbody l. clear Hw0 Hout Hg.
    assert (A0 := pow2_ge_0 (w0' - (u0 - l * g0))).
    assert (A1 := pow2_ge_0 (w1 - (u1 - l * g1))).
    assert (B : 0 <= l * (h - (g0 * w0' + g1 * w1)))
      by (apply Rmult_le_pos; lra).
    assert (C : l * (g0 * (u0 - l * g0) + g1 * (u1 - l * g1)) = l * h)
      by (rewrite Hp; reflexivity).
    nra.
Qed.

(** C4, the objective of section 4.3 at [u = (1, 0)]: the constraint of
    the initial state leaves [u] feasible, yet [v^T Q v + c^T v] is
    smaller at the feasible point [(1/2, 0)] than at [u], so [u] does not
    minimise it. *)
Lemma objective_without_half_not_minimal_at_u :
  qp_feasible (H init_state) (b init_state) (head2 (A3 1 0 0)) /\
  qp_feasible (H init_state) (b init_state) (A2 (1 / 2) 0) /\
  spec_objective Q_mat (c_mat (A3 1 0 0)) (A2 (1 / 2) 0)
    < spec_objective Q_mat (c_mat (A3 1 0 0)) (head2 (A3 1 0 0)).
Proof.
  unfold qp_feasible, spec_objective, quad, Q_mat, scale_mat, eye2, c_mat,
    H, b, vector_to_obstacle, sub2, scale2, head2, dot2, sumsq2, init_state,
    obstacle_state, gamma.
  rewrite d_safe_value. cbn [m00 m01 m10 m11 fst2 snd2 at0 at1]. lra.
Qed.

(** A solver leaves a nominal input alone when it is feasible. *)
Lemma qp_inactive (qp : mat2 -> arr2 -> arr2 -> R -> arr2) (u : arr3) (G : arr2) (h : R) :
  qp_solver qp -> qp_feasible G h (head2 u) -> qp Q_mat (c_mat u) G h = head2 u.
Proof.
  intros Hqp Hin. rewrite <- (c_mat_half u).
  apply qp_minimizer_inactive with (G := G) (h := h).
  - rewrite c_mat_half. exact Hin.
  - apply Hqp. exists (head2 u). exact Hin.
Qed.

(** C4, with the objective cvxopt minimises, [(1/2) v^T Q v + c^T v],
    which is [|v - u|^2 - |u|^2]: a solver that returns a minimiser
    returns the nominal velocity itself whenever [H u <= b], and the
    input built from it is [(u_x, u_y, 0)]. *)
Theorem qp_filter_inactive (qp : mat2 -> arr2 -> arr2 -> R -> arr2) (u p : arr3) :
  qp_solver qp ->
  dot2 (H p) (head2 u) <= b p ->
  (forall v, qp_objective Q_mat (c_mat u) v
             = sumsq2 (sub2 v (head2 u)) - sumsq2 (head2 u)) /\
  qp Q_mat (c_mat u) (H p) (b p) = head2 u /\
  qp_input qp u p = A3 (at0 u) (at1 u) 0.
Proof.
  intros Hqp Hin.
  assert (E := qp_inactive qp u (H p) (b p) Hqp Hin).
  split; [| split].
  - intros v. rewrite qp_objective_distance, c_mat_half. reflexivity.
  - exact E.
  - unfold qp_input. rewrite E. reflexivity.
Qed.

Lemma qp_filter_inactive_witness :
  (forall v, qp_objective Q_mat (c_mat (A3 1 0 0)) v
             = sumsq2 (sub2 v (head2 (A3 1 0 0))) - sumsq2 (head2 (A3 1 0 0))) /\
  qp_exact Q_mat (c_mat (A3 1 0 0)) (H init_state) (b init_state) = head2 (A3 1 0 0) /\
  qp_input qp_exact (A3 1 0 0) init_state = A3 1 0 0.
Proof.
  apply (qp_filter_inactive qp_exact (A3 1 0 0) init_state qp_exact_solver).
  unfold H, b, vector_to_obstacle, sub2, scale2, head2, dot2, sumsq2, init_state,
    obstacle_state, gamma.
  rewrite d_safe_value. cbn [fst2 snd2 at0 at1]. lra.
Defined.

(** ** Goal-seeking policy *)

Lemma error_norm_nonneg (p : arr3) : 0 <= error_norm p.
Proof. apply norm2_nonneg. Qed.

(** The additive [1e-10] keeps the division of the gain defined. *)
Lemma gain_Some (r : R) : 0 <= r -> gain r = Some (K r).
Proof. intros Hr. unfold gain, K. apply fdiv_Some. lra. Qed.

Lemma K_g_Some (p : arr3) : K_g p = Some (K (error_norm p)).
Proof. apply gain_Some, error_norm_nonneg. Qed.

Lemma u_gtg_Some (p : arr3) :
  0.005 <= error_norm p -> u_gtg (K (error_norm p)) p = Some (nominal p).
Proof.
  intros Hr. unfold u_gtg. destruct (Rle_dec 0.005 (error_norm p)); [reflexivity | contradiction].
Qed.

Lemma u_gtg_None (k : R) (p : arr3) : error_norm p < 0.005 -> u_gtg k p = None.
Proof.
  intros Hr. unfold u_gtg. destruct (Rle_dec 0.005 (error_norm p)); [lra | reflexivity].
Qed.

Lemma exp_neg_lt_1 (x : R) : 0 < x -> exp (- x) < 1.
Proof. intros Hx. rewrite <- exp_0. apply exp_increasing. lra. Qed.

Lemma exp_neg_ge (x : R) : 1 - x <= exp (- x).
Proof. assert (E := exp_ineq1_le (- x)). lra. Qed.

Lemma exp_neg_le (x : R) : 0 <= x -> exp (- x) <= 1 / (1 + x).
Proof.
  intros Hx. rewrite exp_Ropp. assert (E := exp_ineq1_le x).
  unfold Rdiv. rewrite Rmult_1_l. apply Rinv_le_contravar; lra.
Qed.

Lemma K_0 : K 0 = 0.
Proof.
  unfold K. replace (- beta * 0) with 0 by ring. rewrite exp_0.
  unfold Rdiv. ring.
Qed.

Lemma K_pos (r : R) : 0 < r -> 0 < K r.
Proof.
  intros Hr. unfold K. assert (E := exp_neg_lt_1 (beta * r)).
  replace (- beta * r) with (- (beta * r)) by ring.
  unfold beta, v_trans_max in *. apply Rdiv_lt_0_compat; [| lra].
  apply Rmult_lt_0_compat; lra.
Qed.

Lemma K_nonneg (r : R) : 0 <= r -> 0 <= K r.
Proof.
  intros [Hr | <-]; [left; apply K_pos; exact Hr | rewrite K_0; lra].
Qed.

(** The speed the gain commands at distance [r] stays under the limit. *)
Lemma K_speed_lt (r : R) : 0 < r -> K r * r < v_trans_max.
Proof.
  intros Hr. unfold K. assert (E := exp_pos (- beta * r)).
  unfold v_trans_max in *.
  replace (0.5 * (1 - exp (- beta * r)) / (r + 1e-10) * r)
    with (0.5 * ((1 - exp (- beta * r)) * r) / (r + 1e-10)) by (field; lra).
  apply Rmult_lt_reg_r with (r + 1e-10); [lra |].
  replace (0.5 * ((1 - exp (- beta * r)) * r) / (r + 1e-10) * (r + 1e-10))
    with (0.5 * ((1 - exp (- beta * r)) * r)) by (field; lra).
  nra.
Qed.

(** The two-sided bound on the gain around [beta * v_trans_max]. *)
Lemma K_bounds (r : R) :
  0 <= r ->
  beta * v_trans_max * (r / ((1 + beta * r) * (r + 1e-10))) <= K r
  /\ K r <= beta * v_trans_max * (r / (r + 1e-10)).
Proof.
  intros Hr. unfold K.
  assert (Hlo := exp_neg_le (beta * r)). assert (Hhi := exp_neg_ge (beta * r)).
  replace (- beta * r) with (- (beta * r)) by ring.
  unfold beta, v_trans_max in *.
  assert (Hd : 0 < r + 1e-10) by lra.
  assert (Hb : 0 < 1 + 5 * r) by lra.
  specialize (Hlo ltac:(lra)).
  set (e := exp (- (5 * r))) in *.
  split.
  - apply Rmult_le_reg_r with (r + 1e-10); [lra |].
    replace (0.5 * (1 - e) / (r + 1e-10) * (r + 1e-10)) with (0.5 * (1 - e))
      by (field; lra).
    replace (5 * 0.5 * (r / ((1 + 5 * r) * (r + 1e-10))) * (r + 1e-10))
      with (0.5 * (5 * r / (1 + 5 * r))) by (field; lra).
    assert (5 * r / (1 + 5 * r) = 1 - 1 / (1 + 5 * r)) by (field; lra).
    lra.
  - apply Rmult_le_reg_r with (r + 1e-10); [lra |].
    replace (0.5 * (1 - e) / (r + 1e-10) * (r + 1e-10)) with (0.5 * (1 - e))
      by (field; lra).
    replace (5 * 0.5 * (r / (r + 1e-10)) * (r + 1e-10)) with (5 * 0.5 * r)
      by (field; lra).
    lra.
Qed.

Lemma exp_neg_mult (x : R) : 0 <= x -> exp (- x) * (1 + x) <= 1.
Proof.
  intros Hx. assert (E := exp_ineq1_le x). assert (P := exp_pos (- x)).
  assert (I : exp (- x) * exp x = 1) by (rewrite <- exp_plus, Rplus_opp_l; apply exp_0).
  nra.
Qed.

Lemma inv_eps_bound (eps r : R) : 0 < eps -> / eps < r -> 1 < eps * r.
Proof.
  intros He Hr. assert (Hi : eps * / eps = 1) by (field; lra).
  assert (eps * / eps < eps * r) by (apply Rmult_lt_compat_l; assumption). lra.
Qed.

(** The gain itself vanishes far from the goal. *)
Lemma K_tends_to_zero_at_infinity : tends_to_at_infinity K 0.
Proof.
  intros eps He. exists (/ eps). intros r Hr.
  assert (Hi : 0 < / eps) by (apply Rinv_0_lt_compat; exact He).
  assert (Hr0 : 0 < r) by lra.
  assert (Hk := K_pos r Hr0). assert (Hs := K_speed_lt r Hr0).
  assert (Hb := inv_eps_bound eps r He Hr).
  unfold v_trans_max in Hs.
  rewrite Rminus_0_r, Rabs_pos_eq by lra.
  destruct (Rlt_le_dec (K r) eps) as [Hlt | Hge]; [exact Hlt | exfalso].
  assert (eps * r <= K r * r) by (apply Rmult_le_compat_r; lra). lra.
Qed.

(** The commanded speed [K r * r] saturates to the speed limit. *)
Lemma speed_tends_to_limit_at_infinity :
  tends_to_at_infinity (fun r => K r * r) v_trans_max.
Proof.
  intros eps He. exists (/ eps). intros r Hr.
  assert (Hi : 0 < / eps) by (apply Rinv_0_lt_compat; exact He).
  assert (Hr0 : 0 < r) by lra.
  assert (Hs := K_speed_lt r Hr0).
  assert (Hb := inv_eps_bound eps r He Hr).
  rewrite Rabs_left by lra.
  assert (Hm := exp_neg_mult (beta * r)).
  assert (Hp := exp_pos (- (beta * r))).
  assert (Hx : K r * r * (r + 1e-10) = 0.5 * (1 - exp (- (beta * r))) * r).
  { unfold K, v_trans_max. replace (- beta * r) with (- (beta * r)) by ring.
    field. lra. }
  unfold beta, v_trans_max in *. specialize (Hm ltac:(lra)).
  set (e := exp (- (5 * r))) in *. set (X := K r * r) in *.
  assert (Hgap : (0.5 - X) * (r + 1e-10) <= 0.11) by nra.
  destruct (Rlt_le_dec (- (X - 0.5)) eps) as [Hlt | Hge]; [exact Hlt | exfalso].
  assert (eps * (r + 1e-10) <= (0.5 - X) * (r + 1e-10))
    by (apply Rmult_le_compat_r; lra).
  nra.
Qed.

(** At the goal the gain vanishes too: the [1e-10] of the divisor
    outweighs [r] there. *)
Lemma K_tends_to_zero_at_zero : tends_to_at_zero K 0.
Proof.
  intros eps He. exists (eps * 4e-11). split; [lra |]. intros r [Hr0 Hr].
  assert (Hk := K_pos r Hr0).
  destruct (K_bounds r) as [_ Hhi]; [lra |].
  rewrite Rminus_0_r, Rabs_pos_eq by lra.
  unfold beta, v_trans_max in Hhi.
  assert (Hq : r / (r + 1e-10) * (r + 1e-10) = r) by (field; lra).
  set (q := r / (r + 1e-10)) in *.
  assert (0 <= q) by (apply Rmult_le_pos; [lra | left; apply Rinv_0_lt_compat; lra]).
  assert (q * 1e-10 <= r) by nra.
  lra.
Qed.

Lemma K_not_v_max_at_infinity : ~ tends_to_at_infinity K v_trans_max.
Proof.
  intros Hlim. destruct (Hlim 0.25 ltac:(lra)) as [M HM].
  set (r := Rmax M 2 + 1).
  assert (HrM : M < r) by (unfold r; assert (A := Rmax_l M 2); lra).
  assert (Hr2 : 2 < r) by (unfold r; assert (A := Rmax_r M 2); lra).
  specialize (HM r HrM).
  assert (Hs := K_speed_lt r ltac:(lra)). assert (Hk := K_pos r ltac:(lra)).
  unfold v_trans_max in *.
  apply Rabs_def2 in HM. destruct HM as [_ Hlo].
  assert (0.25 * r < K r * r) by (apply Rmult_lt_compat_r; lra).
  lra.
Qed.

Lemma K_not_beta_v_max_at_zero : ~ tends_to_at_zero K (beta * v_trans_max).
Proof.
  intros Hlim. destruct (Hlim 1 ltac:(lra)) as [eta [He HM]].
  set (r := Rmin (eta / 2) 1e-10).
  assert (Hr1 : r <= eta / 2) by apply Rmin_l.
  assert (Hr2 : r <= 1e-10) by apply Rmin_r.
  assert (Hr0 : 0 < r) by (unfold r; apply Rmin_glb_lt; lra).
  specialize (HM r ltac:(lra)).
  destruct (K_bounds r) as [_ Hhi]; [lra |].
  unfold beta, v_trans_max in *.
  apply Rabs_def2 in HM. destruct HM as [_ Hlo].
  assert (Hq : r / (r + 1e-10) * (r + 1e-10) = r) by (field; lra).
  set (q := r / (r + 1e-10)) in *.
  assert (q <= 1 / 2) by nra.
  lra.
Qed.

(** ** One iteration of the loop *)

Section Iteration.

Variable qp : mat2 -> arr2 -> arr2 -> R -> arr2.

Lemma loop_body_break (it : nat) (s : sim) :
  error_norm (robot_state s) < 0.005 ->
  loop_body qp it s = Break (record_state it s).
Proof.
  intros Hr. unfold loop_body. cbn [record_state robot_state].
  rewrite K_g_Some, u_gtg_None by exact Hr. reflexivity.
Qed.

Lemma loop_body_continue (it : nat) (s : sim) :
  0.005 <= error_norm (robot_state s) ->
  loop_body qp it s =
    match limit_input (qp_input qp (nominal (robot_state s)) (robot_state s)) with
    | Some ci => Next (record_input it ci (record_state it s))
    | None => NonFinite (record_state it s)
    end.
Proof.
  intros Hr. unfold loop_body. cbn [record_state robot_state].
  rewrite K_g_Some, u_gtg_Some by exact Hr. reflexivity.
Qed.

(** What a completed iteration did. *)
Lemma loop_body_Next (it : nat) (s s' : sim) :
  loop_body qp it s = Next s' ->
  0.005 <= error_norm (robot_state s) /\
  exists ci,
    limit_input (qp_input qp (nominal (robot_state s)) (robot_state s)) = Some ci /\
    s' = record_input it ci (record_state it s).
Proof.
  intros E. destruct (Rle_lt_dec 0.005 (error_norm (robot_state s))) as [Hr | Hr].
  - split; [exact Hr |]. rewrite (loop_body_continue it s Hr) in E.
    destruct (limit_input _) as [ci |]; [| discriminate].
    exists ci. split; [reflexivity | congruence].
  - rewrite (loop_body_break it s Hr) in E. discriminate.
Qed.

(** An iteration that does not complete leaves [record_state it s]. *)
Lemma loop_body_stop (it : nat) (s s' : sim) :
  loop_body qp it s = Break s' \/ loop_body qp it s = NonFinite s' ->
  s' = record_state it s.
Proof.
  destruct (Rle_lt_dec 0.005 (error_norm (robot_state s))) as [Hr | Hr].
  - rewrite (loop_body_continue it s Hr).
    destruct (limit_input _); intros [E | E]; congruence.
  - rewrite (loop_body_break it s Hr). intros [E | E]; congruence.
Qed.

End Iteration.

(** ** The first iteration of the program *)

Lemma error_init : error init_state = A3 4 1.5 0.
Proof.
  unfold error, sub3, desired_state, init_state. cbn [at0 at1 at2].
  replace (0 - 0) with 0 by ring. rewrite wrap_angle_0. f_equal; lra.
Qed.

Lemma error_norm_init : 4 <= error_norm init_state <= 5.
Proof.
  unfold error_norm. rewrite error_init. split.
  - apply norm2_ge; [lra |]. unfold sumsq2, head2; simpl. lra.
  - left. apply norm2_lt; [lra |]. unfold sumsq2, head2; simpl. lra.
Qed.

Lemma H_init : H init_state = A2 4 1.
Proof.
  unfold H, vector_to_obstacle, sub2, scale2, head2, init_state, obstacle_state.
  cbn [at0 at1 fst2 snd2]. f_equal; lra.
Qed.

Lemma barrier_init : barrier init_state = 3.744479.
Proof.
  unfold barrier, vector_to_obstacle, sub2, sumsq2, head2, init_state, obstacle_state.
  rewrite d_safe_value. cbn [at0 at1 fst2 snd2]. lra.
Qed.

(** At the initial state the constraint is inactive, so an exact solver
    hands the nominal input on, and the limiter is defined on it. *)
Lemma qp_input_init :
  qp_input qp_exact (nominal init_state) init_state =
    A3 (K (error_norm init_state) * 4) (K (error_norm init_state) * 1.5) 0
  /\ 0 < K (error_norm init_state) * 1.5.
Proof.
  destruct error_norm_init as [Hlo Hhi].
  assert (Hk := K_pos (error_norm init_state) ltac:(lra)).
  assert (Hs := K_speed_lt (error_norm init_state) ltac:(lra)).
  unfold v_trans_max in Hs.
  assert (Hk4 : K (error_norm init_state) * 4 <= K (error_norm init_state) * error_norm init_state)
    by (apply Rmult_le_compat_l; lra).
  split; [| lra].
  unfold qp_input. rewrite qp_inactive.
  - unfold nominal. rewrite error_init. reflexivity.
  - apply qp_exact_solver.
  - unfold qp_feasible, b. fold (barrier init_state).
    rewrite H_init, barrier_init. unfold nominal. rewrite error_init.
    unfold dot2, head2, scale3, gamma. cbn [at0 at1 fst2 snd2]. lra.
Qed.

Lemma limit_input_init :
  exists ci, limit_input (qp_input qp_exact (nominal init_state) init_state) = Some ci.
Proof.
  destruct qp_input_init as [E Hpos]. rewrite E.
  rewrite limit_input_Some by (cbn [at1 at2]; lra). eexists; reflexivity.
Qed.

(** ** History buffers *)

(** Every buffer of the program has a row for index 0. *)
Lemma sim_iter_pos : (0 < sim_iter)%nat.
Proof. rewrite sim_iter_value. lia. Qed.

(** The first iteration of the program completes with an exact solver. *)
Lemma first_iteration :
  exists ci,
    limit_input (qp_input qp_exact (nominal init_state) init_state) = Some ci /\
    loop_body qp_exact 0 (init_sim init_state sim_iter)
      = Next (record_input 0 ci (record_state 0 (init_sim init_state sim_iter))).
Proof.
  destruct limit_input_init as [ci Hci]. exists ci. split; [exact Hci |].
  rewrite loop_body_continue
    by (cbn [init_sim robot_state]; destruct error_norm_init; lra).
  cbn [init_sim robot_state]. rewrite Hci. reflexivity.
Qed.

(** C5, on the first iteration of the program with an exact solver: the
    iteration completes, and the row it leaves in [h_history] is the
    constraint row [H = (4, 1)], while the barrier value there is
    [h = 3.744479]. *)
Theorem h_history_holds_constraint_row :
  exists s', loop_body qp_exact 0 (init_sim init_state sim_iter) = Next s' /\
    h_history s' !! 0%nat = Some (H init_state) /\
    H init_state = A2 4 1 /\
    barrier init_state = 3.744479 /\
    h_history s' !! 0%nat <> Some (A2 (barrier init_state) (barrier init_state)).
Proof.
  destruct first_iteration as (ci & _ & E).
  eexists. split; [exact E |].
  assert (L : h_history (record_input 0 ci (record_state 0 (init_sim init_state sim_iter)))
              !! 0%nat = Some (H init_state)).
  { cbn [record_input record_state h_history init_sim robot_state].
    apply list_lookup_insert_eq. rewrite length_replicate. exact sim_iter_pos. }
  rewrite L, H_init, barrier_init.
  repeat split; try reflexivity.
  intros E'. injection E' as E0 E1. lra.
Qed.

(** Every completed iteration leaves the row [H] in [h_history]. *)
Lemma h_history_entry (qp : mat2 -> arr2 -> arr2 -> R -> arr2) (it : nat) (s s' : sim) :
  (it < length (h_history s))%nat ->
  loop_body qp it s = Next s' ->
  h_history s' !! it = Some (H (robot_state s)).
Proof.
  intros Hit E. apply loop_body_Next in E as (_ & ci & _ & ->).
  cbn. apply list_lookup_insert_eq. exact Hit.
Qed.

(** ** The break *)

Lemma error_norm_goal : error_norm desired_state = 0.
Proof.
  unfold error_norm. apply norm2_eq; [lra |].
  unfold sumsq2, head2, error, sub3, desired_state. cbn [at0 at1 fst2 snd2]. lra.
Qed.

(** C6, at the goal itself: the iteration breaks, and [state_history]
    and [goal_history] hold the entry of that index, which they did not
    before. *)
Lemma break_tick_records_state :
  error_norm (robot_state (init_sim desired_state 1)) < 0.005 /\
  loop_body qp_exact 0 (init_sim desired_state 1)
    = Break (record_state 0 (init_sim desired_state 1)) /\
  state_history (init_sim desired_state 1) = [A3 0 0 0] /\
  state_history (record_state 0 (init_sim desired_state 1)) = [A3 2 1 0] /\
  goal_history (record_state 0 (init_sim desired_state 1)) = [A3 2 1 0] /\
  state_history (record_state 0 (init_sim desired_state 1))
    <> state_history (init_sim desired_state 1).
Proof.
  assert (Hr : error_norm (robot_state (init_sim desired_state 1)) < 0.005)
    by (cbn [init_sim robot_state]; rewrite error_norm_goal; lra).
  split; [exact Hr |]. split; [apply loop_body_break; exact Hr |].
  cbn. repeat split; try reflexivity.
  intros E. injection E as E0 _. lra.
Qed.

(** C6, as the code has it: within the tolerance the iteration ends the
    loop with [GOAL_REACHED]; the state and the input, error and
    constraint histories are as before the iteration, and the state and
    goal histories have been written at the index of the iteration. *)
Theorem break_keeps_state_and_input_histories
    (qp : mat2 -> arr2 -> arr2 -> R -> arr2) (it : nat) (rest : list nat) (s : sim) :
  (it < length (state_history s))%nat ->
  (it < length (goal_history s))%nat ->
  error_norm (robot_state s) < 0.005 ->
  exists s', loop_body qp it s = Break s' /\
    for_range qp (it :: rest) s = (GOAL_REACHED it, s') /\
    robot_state s' = robot_state s /\
    input_history s' = input_history s /\
    error_history s' = error_history s /\
    h_history s' = h_history s /\
    state_history s' = <[it := robot_state s]> (state_history s) /\
    goal_history s' = <[it := desired_state]> (goal_history s) /\
    state_history s' !! it = Some (robot_state s) /\
    goal_history s' !! it = Some desired_state.
Proof.
  intros Hs Hg Hr. exists (record_state it s).
  assert (E := loop_body_break qp it s Hr).
  split; [exact E |]. split; [cbn [for_range]; rewrite E; reflexivity |].
  cbn. repeat split; try reflexivity; apply list_lookup_insert_eq; assumption.
Qed.

Lemma break_keeps_state_and_input_histories_witness :
  exists s', loop_body qp_exact 0 (init_sim desired_state 1) = Break s' /\
    for_range qp_exact [0%nat] (init_sim desired_state 1) = (GOAL_REACHED 0, s') /\
    robot_state s' = robot_state (init_sim desired_state 1) /\
    input_history s' = input_history (init_sim desired_state 1) /\
    error_history s' = error_history (init_sim desired_state 1) /\
    h_history s' = h_history (init_sim desired_state 1) /\
    state_history s' = <[0%nat := robot_state (init_sim desired_state 1)]>
                         (state_history (init_sim desired_state 1)) /\
    goal_history s' = <[0%nat := desired_state]> (goal_history (init_sim desired_state 1)) /\
    state_history s' !! 0%nat = Some (robot_state (init_sim desired_state 1)) /\
    goal_history s' !! 0%nat = Some desired_state.
Proof.
  apply (break_keeps_state_and_input_histories qp_exact 0 [] (init_sim desired_state 1)).
  - cbn. lia.
  - cbn. lia.
  - cbn [init_sim robot_state]. rewrite error_norm_goal. lra.
Defined.

(** ** Nominal velocity *)

(** C7, the two limits the claim gives for the gain: far from the goal
    [K 1000 < 0.001], not near [v_trans_max = 0.5]; at the goal
    [K 0 = 0]; and neither limit holds. *)
Lemma gain_limits_fail :
  K 1000 < 0.001 /\ K 0 = 0 /\
  ~ tends_to_at_infinity K v_trans_max /\
  ~ tends_to_at_zero K (beta * v_trans_max).
Proof.
  split; [| split; [exact K_0 | split]].
  - assert (Hs := K_speed_lt 1000 ltac:(lra)). unfold v_trans_max in Hs. lra.
  - exact K_not_v_max_at_infinity.
  - exact K_not_beta_v_max_at_zero.
Qed.

(** C7, as the code has it: on an iteration that does not break, the
    solver is called with [c_mat] of the nominal input [K r * error],
    whose planar part is [K r * e_xy] with [e_xy = g_xy - p_xy] and
    [r = |e_xy|]; the commanded speed [K r * r] saturates to
    [v_trans_max] as [r] grows while the gain itself tends to zero; and
    the gain lies between [beta v_max r / ((1 + beta r) (r + 1e-10))]
    and [beta v_max r / (r + 1e-10)], so it tends to zero with [r]. *)
Theorem nominal_velocity_gain
    (qp : mat2 -> arr2 -> arr2 -> R -> arr2) (it : nat) (s : sim) :
  let p := robot_state s in
  let e_xy := A2 (at0 desired_state - at0 p) (at1 desired_state - at1 p) in
  let r := error_norm p in
  0.005 <= r ->
  (r = norm2 e_xy /\
   K_g p = Some (K r) /\
   K r = v_trans_max * (1 - exp (- beta * r)) / (r + 1e-10) /\
   u_gtg (K r) p = Some (nominal p) /\
   head2 (nominal p) = scale2 (K r) e_xy /\
   loop_body qp it s =
     match limit_input
             (A3 (fst2 (qp Q_mat (scale2 (-2) (scale2 (K r) e_xy)) (H p) (b p)))
                 (snd2 (qp Q_mat (scale2 (-2) (scale2 (K r) e_xy)) (H p) (b p))) 0) with
     | Some ci => Next (record_input it ci (record_state it s))
     | None => NonFinite (record_state it s)
     end) /\
  (tends_to_at_infinity (fun x => K x * x) v_trans_max /\
   tends_to_at_infinity K 0 /\
   tends_to_at_zero K 0 /\
   forall x, 0 <= x ->
     beta * v_trans_max * (x / ((1 + beta * x) * (x + 1e-10))) <= K x
     /\ K x <= beta * v_trans_max * (x / (x + 1e-10))).
Proof.
  intros p e_xy r Hr. split.
  - assert (Hn : head2 (nominal p) = scale2 (K r) e_xy) by reflexivity.
    repeat split; try reflexivity.
    + apply K_g_Some.
    + apply u_gtg_Some. exact Hr.
    + rewrite (loop_body_continue qp it s Hr). unfold qp_input, c_mat.
      fold p. rewrite Hn. reflexivity.
  - split; [exact speed_tends_to_limit_at_infinity |].
    split; [exact K_tends_to_zero_at_infinity |].
    split; [exact K_tends_to_zero_at_zero | exact K_bounds].
Qed.

Lemma nominal_velocity_gain_witness :
  let p := robot_state (init_sim init_state sim_iter) in
  let e_xy := A2 (at0 desired_state - at0 p) (at1 desired_state - at1 p) in
  let r := error_norm p in
  (r = norm2 e_xy /\
   K_g p = Some (K r) /\
   K r = v_trans_max * (1 - exp (- beta * r)) / (r + 1e-10) /\
   u_gtg (K r) p = Some (nominal p) /\
   head2 (nominal p) = scale2 (K r) e_xy /\
   loop_body qp_exact 0 (init_sim init_state sim_iter) =
     match limit_input
             (A3 (fst2 (qp_exact Q_mat (scale2 (-2) (scale2 (K r) e_xy)) (H p) (b p)))
                 (snd2 (qp_exact Q_mat (scale2 (-2) (scale2 (K r) e_xy)) (H p) (b p))) 0) with
     | Some ci => Next (record_input 0 ci (record_state 0 (init_sim init_state sim_iter)))
     | None => NonFinite (record_state 0 (init_sim init_state sim_iter))
     end) /\
  (tends_to_at_infinity (fun x => K x * x) v_trans_max /\
   tends_to_at_infinity K 0 /\
   tends_to_at_zero K 0 /\
   forall x, 0 <= x ->
     beta * v_trans_max * (x / ((1 + beta * x) * (x + 1e-10))) <= K x
     /\ K x <= beta * v_trans_max * (x / (x + 1e-10))).
Proof.
  apply (nominal_velocity_gain qp_exact 0 (init_sim init_state sim_iter)).
  cbn [init_sim robot_state]. destruct error_norm_init. lra.
Defined.

(** ** Recorded inputs *)

(** The limiter where the QP output points down: [vy] comes out
    positive, the direction reversed. *)
Lemma limiter_reverses_negative_vy :
  limit_input (A3 0.3 (-0.4) 0) = Some (A3 (-0.3) 0.4 0).
Proof.
  rewrite limit_input_Some by (cbn [at1 at2]; lra). cbn [at0 at1 at2].
  assert (Hq : sqrt (1 + (0.3 / (0 + -0.4)) ^ 2) = 1.25)
    by (apply sqrt_lem_1; lra).
  rewrite Hq. f_equal. f_equal; [lra | lra | apply Rmin_left; unfold Ts; lra].
Qed.

(** C10: on an iteration that does not break and on which the QP output
    has [vy + omega <> 0], the iteration completes and the input it
    records has speed exactly [v_trans_max] and a positive [vy],
    whatever the QP output was. *)
Theorem recorded_input_speed
    (qp : mat2 -> arr2 -> arr2 -> R -> arr2) (it : nat) (s : sim) :
  let p := robot_state s in
  let q := qp_input qp (nominal p) p in
  (it < length (input_history s))%nat ->
  0.005 <= error_norm p ->
  at1 q + at2 q <> 0 ->
  exists s' ci, loop_body qp it s = Next s' /\
    limit_input q = Some ci /\
    input_history s' !! it = Some ci /\
    current_input s' = ci /\
    norm2 (head2 ci) = v_trans_max /\
    0 < at1 ci.
Proof.
  intros p q Hit Hr Hq.
  assert (Hd : at2 q + at1 q <> 0) by lra.
  destruct (limit_input q) as [ci |] eqn:E;
    [| rewrite (limit_input_Some q Hd) in E; discriminate].
  exists (record_input it ci (record_state it s)), ci.
  destruct (limit_input_speed q ci E) as [Hs Hv].
  split; [| repeat split; try assumption].
  - rewrite (loop_body_continue qp it s Hr). fold p. fold q. rewrite E. reflexivity.
  - cbn. apply list_lookup_insert_eq. exact Hit.
Qed.

Lemma recorded_input_speed_witness :
  exists s' ci, loop_body qp_exact 0 (init_sim init_state sim_iter) = Next s' /\
    limit_input (qp_input qp_exact (nominal init_state) init_state) = Some ci /\
    input_history s' !! 0%nat = Some ci /\
    current_input s' = ci /\
    norm2 (head2 ci) = v_trans_max /\
    0 < at1 ci.
Proof.
  apply (recorded_input_speed qp_exact 0 (init_sim init_state sim_iter)).
  - cbn [init_sim input_history]. rewrite length_replicate. exact sim_iter_pos.
  - cbn [init_sim robot_state]. destruct error_norm_init. lra.
  - cbn [init_sim robot_state]. destruct qp_input_init as [E Hpos].
    rewrite E. cbn [at1 at2]. lra.
Defined.

(** C2, as the code has it: an iteration that does not break, with the
    limiter defined, completes; the new state is the Euler step of the
    old one by the recorded input on [x], [y] and [theta], the heading
    then reduced by a multiple of [2 PI]; and the heading after any
    update, of any state by any input, lies in the interval closed at
    [- PI] and open at [PI]. *)
Theorem state_update_euler_wrapped
    (qp : mat2 -> arr2 -> arr2 -> R -> arr2) (it : nat) (s : sim) :
  let p := robot_state s in
  let q := qp_input qp (nominal p) p in
  0.005 <= error_norm p ->
  at1 q + at2 q <> 0 ->
  (exists s', loop_body qp it s = Next s' /\
     let u := current_input s' in
     let p' := robot_state s' in
     at0 p' = at0 p + Ts * at0 u /\
     at1 p' = at1 p + Ts * at1 u /\
     at2 p' = wrap_angle (at2 p + Ts * at2 u) /\
     (exists k : Z, at2 p' = at2 p + Ts * at2 u - IZR k * (2 * PI)) /\
     - PI <= at2 p' < PI) /\
  (forall p0 u0 : arr3, - PI <= at2 (update_state p0 u0) < PI).
Proof.
  intros p q Hr Hq. split; [| intros p0 u0; apply update_state_spec].
  assert (Hd : at2 q + at1 q <> 0) by lra.
  exists (record_input it
            (A3 (at0 q / (at2 q + at1 q) * (0.5 / sqrt (1 + (at0 q / (at2 q + at1 q)) ^ 2)))
                (0.5 / sqrt (1 + (at0 q / (at2 q + at1 q)) ^ 2))
                (Rmin (at2 q) (5 * Ts)))
            (record_state it s)).
  split.
  - rewrite (loop_body_continue qp it s Hr). fold p. fold q.
    rewrite (limit_input_Some q Hd). reflexivity.
  - cbv zeta. cbn [record_input record_state robot_state current_input].
    apply update_state_spec.
Qed.

Lemma state_update_euler_wrapped_witness :
  (exists s', loop_body qp_exact 0 (init_sim init_state sim_iter) = Next s' /\
     let u := current_input s' in
     let p' := robot_state s' in
     at0 p' = at0 init_state + Ts * at0 u /\
     at1 p' = at1 init_state + Ts * at1 u /\
     at2 p' = wrap_angle (at2 init_state + Ts * at2 u) /\
     (exists k : Z, at2 p' = at2 init_state + Ts * at2 u - IZR k * (2 * PI)) /\
     - PI <= at2 p' < PI) /\
  (forall p0 u0 : arr3, - PI <= at2 (update_state p0 u0) < PI).
Proof.
  apply (state_update_euler_wrapped qp_exact 0 (init_sim init_state sim_iter)).
  - cbn [init_sim robot_state]. destruct error_norm_init. lra.
  - cbn [init_sim robot_state]. destruct qp_input_init as [E Hpos].
    rewrite E. cbn [at1 at2]. lra.
Defined.

(** ** Angular rate and heading over the run *)

Lemma heading_inv_init (start : arr3) (n : nat) :
  heading_inv (at2 start) (init_sim start n).
Proof.
  unfold heading_inv, init_sim. cbn.
  repeat split; try reflexivity; apply Forall_replicate; auto.
Qed.

Lemma heading_inv_record_state (theta0 : R) (it : nat) (s : sim) :
  heading_inv theta0 s -> heading_inv theta0 (record_state it s).
Proof.
  intros (Hp & Hc & Hi & Hs). unfold heading_inv. cbn.
  repeat split; try assumption. apply Forall_insert; auto.
Qed.

Lemma heading_inv_step (qp : mat2 -> arr2 -> arr2 -> R -> arr2)
    (theta0 : R) (it : nat) (s s' : sim) :
  - PI <= theta0 < PI ->
  heading_inv theta0 s ->
  loop_body qp it s = Next s' ->
  heading_inv theta0 s'.
Proof.
  intros Ht Hinv E. apply loop_body_Next in E as (_ & ci & Hci & ->).
  assert (Hw : at2 ci = 0)
    by (apply (limit_input_omega _ ci (eq_refl : at2 (qp_input qp _ _) = 0) Hci)).
  apply (heading_inv_record_state theta0 it) in Hinv.
  destruct Hinv as (Hp & Hc & Hi & Hs).
  unfold heading_inv. cbn [record_input robot_state current_input input_history state_history].
  repeat split; try assumption.
  - unfold update_state, add3, scale3. cbn [at0 at1 at2].
    cbn [record_state robot_state] in Hp |- *. rewrite Hp, Hw.
    replace (theta0 + Ts * 0) with theta0 by ring. apply wrap_angle_id. exact Ht.
  - apply Forall_insert; assumption.
Qed.

Lemma heading_inv_for_range (qp : mat2 -> arr2 -> arr2 -> R -> arr2)
    (theta0 : R) (its : list nat) :
  - PI <= theta0 < PI ->
  forall s, heading_inv theta0 s -> heading_inv theta0 (snd (for_range qp its s)).
Proof.
  intros Ht. induction its as [| it rest IH]; intros s Hinv; [exact Hinv |].
  cbn [for_range]. destruct (loop_body qp it s) as [s' | s' | s'] eqn:E.
  - rewrite (loop_body_stop qp it s s' (or_introl E)).
    apply heading_inv_record_state, Hinv.
  - apply IH. exact (heading_inv_step qp theta0 it s s' Ht Hinv E).
  - rewrite (loop_body_stop qp it s s' (or_intror E)).
    apply heading_inv_record_state, Hinv.
Qed.

(** C9: from a start heading in the range of the wrap (the program
    starts at heading zero), after any number [k] of iterations of a
    run of [n] steps the heading of the state is the start heading, the
    current input and every recorded input have angular rate exactly
    zero, and every state recorded so far has the start heading. *)
Theorem angular_rate_zero_heading_constant
    (qp : mat2 -> arr2 -> arr2 -> R -> arr2) (start : arr3) (n k : nat) :
  - PI <= at2 start < PI ->
  let s := snd (for_range qp (seq 0 k) (init_sim start n)) in
  at2 (robot_state s) = at2 start /\
  at2 (current_input s) = 0 /\
  Forall (fun ci => at2 ci = 0) (input_history s) /\
  Forall (fun p => p = zeros3 \/ at2 p = at2 start) (state_history s).
Proof.
  intros Ht s. apply heading_inv_for_range; [exact Ht | apply heading_inv_init].
Qed.

Lemma angular_rate_zero_heading_constant_witness :
  let s := snd (simulate_from qp_exact init_state sim_iter) in
  at2 (robot_state s) = at2 init_state /\
  at2 (current_input s) = 0 /\
  Forall (fun ci => at2 ci = 0) (input_history s) /\
  Forall (fun p => p = zeros3 \/ at2 p = at2 init_state) (state_history s).
Proof.
  apply (angular_rate_zero_heading_constant qp_exact init_state sim_iter sim_iter).
  cbn [init_state at2]. assert (Hpi := PI_RGT_0). lra.
Defined.

(** * Further properties of the run *)

(** ** Buffer lengths *)

Lemma init_sim_length (start : arr3) (n : nat) : buffers_length n (init_sim start n).
Proof. unfold buffers_length, init_sim. cbn. rewrite !length_replicate. auto. Qed.

Lemma record_state_length (n it : nat) (s : sim) :
  buffers_length n s -> buffers_length n (record_state it s).
Proof.
  intros (Hs & Hg & Hi & He & Hh). unfold buffers_length. cbn.
  rewrite !length_insert. auto.
Qed.

Lemma record_input_length (n it : nat) (ci : arr3) (s : sim) :
  buffers_length n s -> buffers_length n (record_input it ci s).
Proof.
  intros (Hs & Hg & Hi & He & Hh). unfold buffers_length. cbn.
  rewrite !length_insert. auto.
Qed.

Lemma for_range_length (qp : mat2 -> arr2 -> arr2 -> R -> arr2) (n : nat) (its : list nat) :
  forall s, buffers_length n s -> buffers_length n (snd (for_range qp its s)).
Proof.
  induction its as [| it rest IH]; intros s Hl; [exact Hl |].
  cbn [for_range]. destruct (loop_body qp it s) as [s' | s' | s'] eqn:E.
  - rewrite (loop_body_stop qp it s s' (or_introl E)). apply record_state_length, Hl.
  - apply IH. apply loop_body_Next in E as (_ & ci & _ & ->).
    apply record_input_length, record_state_length, Hl.
  - rewrite (loop_body_stop qp it s s' (or_intror E)). apply record_state_length, Hl.
Qed.

(** X1: however the loop ends, and for any solver, every buffer keeps
    the number of rows it was allocated with; the four arrays that
    [simulate_control] returns have 942 rows each, as many as the time
    axis they are plotted against. *)
Theorem returned_arrays_match_time_axis (qp : mat2 -> arr2 -> arr2 -> R -> arr2) :
  (forall start n its, buffers_length n (snd (for_range qp its (init_sim start n)))) /\
  length time_axis = 942%nat /\
  match simulate_control qp with
  | (sh, gh, ih, hh) =>
    length sh = length time_axis /\ length gh = length time_axis /\
    length ih = length time_axis /\ length hh = length time_axis
  end.
Proof.
  assert (Ht : length time_axis = sim_iter)
    by (unfold time_axis; rewrite length_map, length_seq; reflexivity).
  split; [intros; apply for_range_length, init_sim_length |].
  split; [rewrite Ht; apply sim_iter_value |].
  unfold simulate_control, simulate_from. rewrite Ht.
  destruct (for_range_length qp sim_iter (seq 0 sim_iter) _
              (init_sim_length init_state sim_iter)) as (Hs & Hg & Hi & _ & Hh).
  auto.
Qed.

(** ** The recorded trace *)

Ltac sim_fields :=
  cbn [record_input record_state init_sim robot_state current_input
       state_history goal_history input_history error_history h_history] in *.

Lemma trace_inv_init (qp : mat2 -> arr2 -> arr2 -> R -> arr2) (start : arr3) (n : nat) :
  trace_inv qp n 0 (init_sim start n).
Proof.
  split; [apply init_sim_length |]. split; [intros i p Hi; lia |].
  intros j _ Hj. sim_fields. rewrite !lookup_replicate_2 by exact Hj. auto.
Qed.

Lemma trace_inv_step (qp : mat2 -> arr2 -> arr2 -> R -> arr2) (n a : nat) (s s' : sim) :
  trace_inv qp n a s -> (a < n)%nat ->
  loop_body qp a s = Next s' -> trace_inv qp n (S a) s'.
Proof.
  intros (Hl & Hrec & Hz) Han E.
  apply loop_body_Next in E as (Hr & ci & Hci & ->).
  split; [apply record_input_length, record_state_length, Hl |].
  destruct Hl as (Ls & Lg & Li & Le & Lh).
  split.
  - intros i p Hi Hp. sim_fields.
    destruct (decide (i = a)) as [-> | Hne].
    + rewrite list_lookup_insert_eq in Hp by lia. injection Hp as <-.
      split; [exact Hr |]. exists ci.
      rewrite !list_lookup_insert_eq by lia.
      repeat split; try assumption; try reflexivity. intros HS; lia.
    + rewrite list_lookup_insert_ne in Hp by auto.
      destruct (Hrec i p ltac:(lia) Hp)
        as (Hr' & u & Hu & Hin & Her & Hh & Hg & Hnext & Hlast).
      split; [exact Hr' |]. exists u.
      rewrite !list_lookup_insert_ne by auto.
      repeat split; try assumption.
      * intros HS. destruct (decide (S i = a)) as [Ha | Hna].
        -- rewrite Ha, list_lookup_insert_eq by lia. f_equal. apply Hlast, Ha.
        -- rewrite list_lookup_insert_ne by auto. apply Hnext. lia.
      * intros HS. lia.
  - intros j Hj Hjn. sim_fields.
    destruct (Hz j ltac:(lia) Hjn) as (Zs & Zg & Zi & Ze & Zh).
    rewrite !list_lookup_insert_ne by lia. auto.
Qed.

(** What the loop over [a, a + 1, ..., a + k - 1] leaves, by the status
    it ends in. *)
Lemma for_range_trace (qp : mat2 -> arr2 -> arr2 -> R -> arr2) (n k : nat) :
  forall a s, (a + k <= n)%nat -> trace_inv qp n a s ->
  match fst (for_range qp (seq a k) s) with
  | ITERATION_LIMIT_REACHED => trace_inv qp n (a + k) (snd (for_range qp (seq a k) s))
  | GOAL_REACHED it =>
    (a <= it < a + k)%nat /\ exists s0, trace_inv qp n it s0 /\
      error_norm (robot_state s0) < 0.005 /\
      snd (for_range qp (seq a k) s) = record_state it s0
  | NOT_FINITE it =>
    (a <= it < a + k)%nat /\ exists s0, trace_inv qp n it s0 /\
      0.005 <= error_norm (robot_state s0) /\
      limit_input (qp_input qp (nominal (robot_state s0)) (robot_state s0)) = None /\
      snd (for_range qp (seq a k) s) = record_state it s0
  end.
Proof.
  induction k as [| k IH]; intros a s Hak Hinv.
  - cbn. replace (a + 0)%nat with a by lia. exact Hinv.
  - cbn [seq for_range].
    destruct (Rle_lt_dec 0.005 (error_norm (robot_state s))) as [Hr | Hr].
    + rewrite (loop_body_continue qp a s Hr).
      destruct (limit_input _) as [ci |] eqn:Hci.
      * assert (E : loop_body qp a s = Next (record_input a ci (record_state a s)))
          by (rewrite (loop_body_continue qp a s Hr), Hci; reflexivity).
        specialize (IH (S a) _ ltac:(lia) (trace_inv_step qp n a s _ Hinv ltac:(lia) E)).
        destruct (fst (for_range qp (seq (S a) k) _)) as [it | | it].
        -- destruct IH as (Hit & Hs0). split; [lia | exact Hs0].
        -- replace (a + S k)%nat with (S a + k)%nat by lia. exact IH.
        -- destruct IH as (Hit & Hs0). split; [lia | exact Hs0].
      * cbn [fst snd]. split; [lia |]. exists s. auto.
    + rewrite (loop_body_break qp a s Hr). cbn [fst snd].
      split; [lia |]. exists s. auto.
Qed.

(** The trace after the loop has ended, whatever the status. *)
Lemma simulate_trace (qp : mat2 -> arr2 -> arr2 -> R -> arr2) (start : arr3) (n : nat) :
  let st := fst (simulate_from qp start n) in
  let s := snd (simulate_from qp start n) in
  (ticks_completed st n <= ticks_started st n <= n)%nat /\
  (forall i p, (i < ticks_completed st n)%nat -> state_history s !! i = Some p ->
     0.005 <= error_norm p /\
     exists u,
       limit_input (qp_input qp (nominal p) p) = Some u /\
       input_history s !! i = Some u /\
       error_history s !! i = Some (error p) /\
       h_history s !! i = Some (H p) /\
       goal_history s !! i = Some desired_state /\
       ((S i < ticks_started st n)%nat -> state_history s !! S i = Some (update_state p u)) /\
       (S i = n -> robot_state s = update_state p u)) /\
  (forall j, (j < n)%nat ->
     ((ticks_started st n <= j)%nat ->
        state_history s !! j = Some zeros3 /\ goal_history s !! j = Some zeros3) /\
     ((ticks_completed st n <= j)%nat ->
        input_history s !! j = Some zeros3 /\ error_history s !! j = Some zeros3 /\
        h_history s !! j = Some zeros2)) /\
  ((ticks_completed st n < ticks_started st n)%nat ->
     state_history s !! ticks_completed st n = Some (robot_state s) /\
     goal_history s !! ticks_completed st n = Some desired_state).
Proof.
  intros st s. subst st s. unfold simulate_from.
  assert (T := for_range_trace qp n n 0 (init_sim start n) ltac:(lia)
                 (trace_inv_init qp start n)).
  destruct (for_range qp (seq 0 n) (init_sim start n)) as [st s]. cbn [fst snd] in *.
  assert (Stop : forall it s0, (it < n)%nat -> trace_inv qp n it s0 ->
            s = record_state it s0 ->
            (forall i p, (i < it)%nat -> state_history s !! i = Some p ->
               0.005 <= error_norm p /\
               exists u,
                 limit_input (qp_input qp (nominal p) p) = Some u /\
                 input_history s !! i = Some u /\
                 error_history s !! i = Some (error p) /\
                 h_history s !! i = Some (H p) /\
                 goal_history s !! i = Some desired_state /\
                 ((S i < S it)%nat -> state_history s !! S i = Some (update_state p u)) /\
                 (S i = n -> robot_state s = update_state p u)) /\
            (forall j, (j < n)%nat ->
               ((S it <= j)%nat ->
                  state_history s !! j = Some zeros3 /\ goal_history s !! j = Some zeros3) /\
               ((it <= j)%nat ->
                  input_history s !! j = Some zeros3 /\ error_history s !! j = Some zeros3 /\
                  h_history s !! j = Some zeros2)) /\
            ((it < S it)%nat ->
               state_history s !! it = Some (robot_state s) /\
               goal_history s !! it = Some desired_state)).
  { intros it s0 Hit ((Ls & Lg & Li & Le & Lh) & Hrec & Hz) ->. sim_fields.
    split; [| split].
    - intros i p Hi Hp. rewrite list_lookup_insert_ne in Hp by lia.
      destruct (Hrec i p Hi Hp) as (Hr' & u & Hu & Hin & Her & Hh & Hg & Hnext & Hlast).
      split; [exact Hr' |]. exists u.
      rewrite list_lookup_insert_ne by lia.
      repeat split; try assumption.
      + intros _. destruct (decide (S i = it)) as [Ha | Hna].
        * rewrite Ha, list_lookup_insert_eq by lia. f_equal. apply Hlast, Ha.
        * rewrite list_lookup_insert_ne by auto. apply Hnext. lia.
      + intros HS. lia.
    - intros j Hj. split; intros Hge.
      + destruct (Hz j ltac:(lia) Hj) as (Zs & Zg & _).
        rewrite !list_lookup_insert_ne by lia. auto.
      + destruct (Hz j Hge Hj) as (_ & _ & Zi & Ze & Zh). auto.
    - intros _. rewrite !list_lookup_insert_eq by lia. auto. }
  destruct st as [it | | it]; cbn [ticks_started ticks_completed].
  - destruct T as (Hit & s0 & Hinv & _ & Hs). split; [lia |].
    apply (Stop it s0 ltac:(lia) Hinv Hs).
  - cbn [Nat.add] in T. destruct T as (Hl & Hrec & Hz). split; [lia |].
    split; [| split].
    + intros i p Hi Hp.
      destruct (Hrec i p Hi Hp) as (Hr' & u & Hu & Hin & Her & Hh & Hg & Hnext & Hlast).
      split; [exact Hr' |]. exists u. auto 10.
    + intros j Hj. split; intros Hge; lia.
    + intros Habs. lia.
  - destruct T as (Hit & s0 & Hinv & _ & _ & Hs). split; [lia |].
    apply (Stop it s0 ltac:(lia) Hinv Hs).
Qed.

Lemma state_row_exists (qp : mat2 -> arr2 -> arr2 -> R -> arr2) (start : arr3) (n i : nat) :
  (i < n)%nat -> exists p, state_history (snd (simulate_from qp start n)) !! i = Some p.
Proof.
  intros Hi. apply lookup_lt_is_Some_2.
  destruct (for_range_length qp n (seq 0 n) _ (init_sim_length start n)) as (Ls & _).
  unfold simulate_from. rewrite Ls. exact Hi.
Qed.

(** If the first iteration completes, at least one iteration did. *)
Lemma first_tick_completed (qp : mat2 -> arr2 -> arr2 -> R -> arr2)
    (start : arr3) (n : nat) (s1 : sim) :
  loop_body qp 0 (init_sim start (S n)) = Next s1 ->
  (1 <= ticks_completed (fst (simulate_from qp start (S n))) (S n))%nat.
Proof.
  intros E. unfold simulate_from. cbn [seq for_range]. rewrite E.
  assert (T := for_range_trace qp (S n) n 1 s1 ltac:(lia)
                 (trace_inv_step qp (S n) 0 _ s1 (trace_inv_init qp start (S n))
                    ltac:(lia) E)).
  destruct (fst (for_range qp (seq 1 n) s1)) as [it | | it];
    cbn [ticks_completed]; try lia; destruct T as (Hit & _); lia.
Qed.

Lemma program_first_tick :
  (0 < ticks_completed (fst (simulate_from qp_exact init_state sim_iter)) sim_iter)%nat.
Proof.
  destruct first_iteration as (ci & _ & E). revert E.
  rewrite sim_iter_value. change 942%nat with (S 941). intros E.
  apply (first_tick_completed qp_exact init_state 941 _ E).
Qed.

(** X2: in the arrays a run leaves, every row [i] of an iteration that
    ran to its end holds what that iteration computed from the state
    recorded in [state_history[i]]: the goal, the wrapped error, the row
    [H], and the limited solver output as input, of speed
    [v_trans_max]; and the next recorded state (or, after the last
    iteration, the final state) is the update of that state by that
    input. *)
Theorem recorded_rows_follow_the_dynamics
    (qp : mat2 -> arr2 -> arr2 -> R -> arr2) (start : arr3) (n i : nat) :
  let st := fst (simulate_from qp start n) in
  let s := snd (simulate_from qp start n) in
  (i < ticks_completed st n)%nat ->
  exists p u,
    state_history s !! i = Some p /\
    input_history s !! i = Some u /\
    goal_history s !! i = Some desired_state /\
    error_history s !! i = Some (error p) /\
    h_history s !! i = Some (H p) /\
    0.005 <= error_norm p /\
    limit_input (qp_input qp (nominal p) p) = Some u /\
    norm2 (head2 u) = v_trans_max /\
    ((S i < ticks_started st n)%nat -> state_history s !! S i = Some (update_state p u)) /\
    (S i = n -> robot_state s = update_state p u).
Proof.
  intros st s Hi.
  destruct (simulate_trace qp start n) as (Hle & Hrec & _).
  fold st in Hle, Hrec. fold s in Hrec.
  destruct (state_row_exists qp start n i ltac:(lia)) as [p Hp]. fold s in Hp.
  destruct (Hrec i p Hi Hp) as (Hr & u & Hu & Hin & Her & Hh & Hg & Hnext & Hlast).
  exists p, u. destruct (limit_input_speed _ _ Hu) as [Hs _].
  repeat split; assumption.
Qed.

Lemma recorded_rows_follow_the_dynamics_witness :
  let st := fst (simulate_from qp_exact init_state sim_iter) in
  let s := snd (simulate_from qp_exact init_state sim_iter) in
  exists p u,
    state_history s !! 0%nat = Some p /\
    input_history s !! 0%nat = Some u /\
    goal_history s !! 0%nat = Some desired_state /\
    error_history s !! 0%nat = Some (error p) /\
    h_history s !! 0%nat = Some (H p) /\
    0.005 <= error_norm p /\
    limit_input (qp_input qp_exact (nominal p) p) = Some u /\
    norm2 (head2 u) = v_trans_max /\
    ((1 < ticks_started st sim_iter)%nat -> state_history s !! 1%nat = Some (update_state p u)) /\
    (1%nat = sim_iter -> robot_state s = update_state p u).
Proof.
  apply (recorded_rows_follow_the_dynamics qp_exact init_state sim_iter 0).
  exact program_first_tick.
Defined.





(** ** Motion of the robot *)

Lemma step_displacement (p ci : arr3) :
  norm2 (head2 ci) = 0.5 ->
  norm2 (sub2 (head2 (update_state p ci)) (head2 p)) = Ts * v_trans_max.
Proof.
  intros Hn. assert (Hs := norm2_sqr (head2 ci)). rewrite Hn in Hs.
  apply norm2_eq; [unfold Ts, v_trans_max; lra |].
  unfold sumsq2, sub2, head2, update_state, add3, scale3, Ts, v_trans_max in *.
  cbn [at0 at1 at2 fst2 snd2] in *. nra.
Qed.

(** X5: an iteration that runs to its end moves the robot by exactly
    [Ts * v_trans_max = 0.005], whatever the distance to the goal or to
    the obstacle, and strictly upwards: [y] increases, by at most that
    amount. *)
Theorem every_step_has_fixed_length_and_rises
    (qp : mat2 -> arr2 -> arr2 -> R -> arr2) (it : nat) (s : sim) :
  let p := robot_state s in
  let q := qp_input qp (nominal p) p in
  0.005 <= error_norm p ->
  at1 q + at2 q <> 0 ->
  exists s', loop_body qp it s = Next s' /\
    norm2 (sub2 (head2 (robot_state s')) (head2 p)) = Ts * v_trans_max /\
    at1 p < at1 (robot_state s') <= at1 p + Ts * v_trans_max.
Proof.
  intros p q Hr Hq.
  assert (Hd : at2 q + at1 q <> 0) by lra.
  destruct (limit_input q) as [ci |] eqn:E;
    [| rewrite (limit_input_Some q Hd) in E; discriminate].
  destruct (limit_input_speed q ci E) as [Hs Hv].
  exists (record_input it ci (record_state it s)). split; [| split].
  - rewrite (loop_body_continue qp it s Hr). fold p. fold q. rewrite E. reflexivity.
  - sim_fields. apply step_displacement. exact Hs.
  - sim_fields. fold p.
    assert (Hn := norm2_sqr (head2 ci)). rewrite Hs in Hn.
    unfold update_state, add3, scale3, sumsq2, head2, Ts, v_trans_max in *.
    cbn [at0 at1 at2 fst2 snd2] in *. split; [lra | nra].
Qed.

Lemma every_step_has_fixed_length_and_rises_witness :
  exists s', loop_body qp_exact 0 (init_sim init_state sim_iter) = Next s' /\
    norm2 (sub2 (head2 (robot_state s')) (head2 init_state)) = Ts * v_trans_max /\
    at1 init_state < at1 (robot_state s') <= at1 init_state + Ts * v_trans_max.
Proof.
  apply (every_step_has_fixed_length_and_rises qp_exact 0 (init_sim init_state sim_iter)).
  - cbn [init_sim robot_state]. destruct error_norm_init. lra.
  - cbn [init_sim robot_state]. destruct qp_input_init as [E Hpos].
    rewrite E. cbn [at1 at2]. lra.
Defined.





(** ** More on the limiter *)

Lemma limit_input_3_4 : limit_input (A3 0.03 0.04 0) = Some (A3 0.3 0.4 0).
Proof.
  assert (Hn : norm2 (A2 0.03 0.04) = 0.05)
    by (apply norm2_eq; [lra | unfold sumsq2; simpl; lra]).
  rewrite limit_input_scaling by lra. rewrite Hn. f_equal. f_equal; lra.
Qed.

(** X7: the limiter is idempotent on velocities without angular rate:
    an input it has produced passes through it unchanged. *)
Theorem limiter_idempotent (u ci : arr3) :
  at2 u = 0 -> limit_input u = Some ci -> limit_input ci = Some ci.
Proof.
  intros Hw E.
  destruct (limit_input_speed u ci E) as [Hs Hv].
  assert (Hw' := limit_input_omega u ci Hw E).
  destruct ci as [x y w]. cbn [at0 at1 at2] in *. subst w.
  change (norm2 (A2 x y) = 0.5) in Hs.
  rewrite (limit_input_scaling x y Hv), Hs. f_equal. f_equal; field; lra.
Qed.

Lemma limiter_idempotent_witness : limit_input (A3 0.3 0.4 0) = Some (A3 0.3 0.4 0).
Proof.
  apply (limiter_idempotent (A3 0.03 0.04 0) (A3 0.3 0.4 0)).
  - reflexivity.
  - exact limit_input_3_4.
Defined.

Lemma norm2_opp (x y : R) : norm2 (A2 (- x) (- y)) = norm2 (A2 x y).
Proof. unfold norm2, sumsq2. cbn [fst2 snd2]. f_equal. ring. Qed.

(** X8: the limiter sees only the ratio of [vx] to [vy]: two opposite
    solver outputs get the same limited input, and for an output that
    points down ([vy < 0]) that input is the velocity of speed 0.5 in
    the opposite direction. *)
Theorem limiter_forgets_orientation (vx vy : R) :
  vy <> 0 ->
  limit_input (A3 (- vx) (- vy) 0) = limit_input (A3 vx vy 0) /\
  (vy < 0 ->
   limit_input (A3 vx vy 0) =
     Some (A3 (- (0.5 / norm2 (A2 vx vy)) * vx) (- (0.5 / norm2 (A2 vx vy)) * vy) 0)).
Proof.
  intros Hvy.
  assert (E : limit_input (A3 (- vx) (- vy) 0) = limit_input (A3 vx vy 0)).
  { rewrite !limit_input_Some by (cbn [at1 at2]; lra). cbn [at0 at1 at2].
    replace (- vx / (0 + - vy)) with (vx / (0 + vy)) by (field; lra).
    reflexivity. }
  split; [exact E |]. intros Hneg.
  rewrite <- E, limit_input_scaling by lra. rewrite norm2_opp.
  f_equal. f_equal; ring.
Qed.

Lemma limiter_forgets_orientation_witness :
  limit_input (A3 (- (0.3)) (- (-0.4)) 0) = limit_input (A3 0.3 (-0.4) 0) /\
  (-0.4 < 0 ->
   limit_input (A3 0.3 (-0.4) 0) =
     Some (A3 (- (0.5 / norm2 (A2 0.3 (-0.4))) * 0.3)
              (- (0.5 / norm2 (A2 0.3 (-0.4))) * -0.4) 0)).
Proof. apply (limiter_forgets_orientation 0.3 (-0.4)). lra. Defined.

(** ** More on the nominal input *)

Lemma nominal_norm (p : arr3) :
  norm2 (head2 (nominal p)) = K (error_norm p) * error_norm p.
Proof.
  assert (Hr := error_norm_nonneg p). assert (Hk := K_nonneg _ Hr).
  assert (Hs := norm2_sqr (head2 (error p))). fold (error_norm p) in Hs.
  apply norm2_eq; [apply Rmult_le_pos; assumption |].
  set (r := error_norm p) in *. set (k := K r) in *.
  unfold nominal. fold r. fold k.
  unfold sumsq2, head2, scale3 in *. cbn [at0 at1 fst2 snd2] in *.
  replace ((k * at0 (error p)) ^ 2 + (k * at1 (error p)) ^ 2)
    with (k * k * (at0 (error p) ^ 2 + at1 (error p) ^ 2)) by ring.
  rewrite <- Hs. ring.
Qed.

Lemma nominal_speed_lt (p : arr3) : norm2 (head2 (nominal p)) < v_trans_max.
Proof.
  rewrite nominal_norm. destruct (error_norm_nonneg p) as [Hr | <-].
  - apply K_speed_lt, Hr.
  - rewrite Rmult_0_r. unfold v_trans_max. lra.
Qed.

(** X9: in every state the nominal velocity points from the robot to the
    goal (it is a nonnegative multiple of the planar error) and its
    speed, [K r * r], is strictly below [v_trans_max]. *)
Theorem nominal_velocity_within_speed_limit (p : arr3) :
  let r := error_norm p in
  0 <= K r /\
  head2 (nominal p) = scale2 (K r) (head2 (error p)) /\
  norm2 (head2 (nominal p)) = K r * r /\
  norm2 (head2 (nominal p)) < v_trans_max.
Proof.
  intros r. split; [apply K_nonneg, error_norm_nonneg |].
  split; [reflexivity |]. split; [apply nominal_norm | apply nominal_speed_lt].
Qed.

(** ** More on the safety filter *)

Lemma sumsq2_pos (a : arr2) : a <> zeros2 -> 0 < sumsq2 a.
Proof.
  intros Ha. destruct (Rle_lt_dec (sumsq2 a) 0) as [Hz | Hp]; [| exact Hp].
  exfalso. apply Ha, sumsq2_zero, Hz.
Qed.

Lemma sumsq2_H (p : arr3) : sumsq2 (H p) = 4 * sumsq2 (vector_to_obstacle p).
Proof. unfold H, sumsq2, scale2. cbn [fst2 snd2]. ring. Qed.

(** Away from the centre of the obstacle the constraint can be met. *)
Lemma feasible_off_centre (p : arr3) :
  vector_to_obstacle p <> zeros2 -> exists w, qp_feasible (H p) (b p) w.
Proof.
  intros Hd. assert (Hs := sumsq2_pos _ Hd). rewrite <- (Rmult_1_l (sumsq2 _)) in Hs.
  assert (Hh : 0 < sumsq2 (H p)) by (rewrite sumsq2_H; lra).
  exists (scale2 (b p / sumsq2 (H p)) (H p)).
  unfold qp_feasible. right.
  unfold dot2, scale2, sumsq2 in *. cbn [fst2 snd2] in *. field. lra.
Qed.

(** The problem of the program has one minimiser only. *)
Lemma qp_minimizer_unique (c G v1 v2 : arr2) (h : R) :
  qp_minimizer Q_mat c G h v1 -> qp_minimizer Q_mat c G h v2 -> v1 = v2.
Proof.
  intros [F1 M1] [F2 M2].
  set (m := A2 ((fst2 v1 + fst2 v2) / 2) ((snd2 v1 + snd2 v2) / 2)).
  assert (Fm : qp_feasible G h m).
  { unfold qp_feasible, dot2, m in *. cbn [fst2 snd2]. lra. }
  specialize (M1 m Fm). specialize (M2 m Fm).
  rewrite !qp_objective_distance in M1, M2.
  destruct v1 as [x1 y1], v2 as [x2 y2], (scale2 (- (1 / 2)) c) as [a0 a1].
  unfold sumsq2, sub2, m in M1, M2. cbn [fst2 snd2] in M1, M2.
  clear F1 F2 Fm m.
  assert (Hid : (x1 - x2) ^ 2 + (y1 - y2) ^ 2
                = 2 * ((x1 - a0) ^ 2 + (y1 - a1) ^ 2 + ((x2 - a0) ^ 2 + (y2 - a1) ^ 2)
                       - 2 * (((x1 + x2) / 2 - a0) ^ 2 + ((y1 + y2) / 2 - a1) ^ 2)))
    by field.
  assert (Hx : (x1 - x2) ^ 2 + (y1 - y2) ^ 2 <= 0) by lra.
  apply (sub2_zero (A2 x1 y1) (A2 x2 y2)), sumsq2_zero.
  unfold sumsq2, sub2. cbn [fst2 snd2]. exact Hx.
Qed.

Lemma qp_solver_exact (qp : mat2 -> arr2 -> arr2 -> R -> arr2) (c G : arr2) (h : R) :
  qp_solver qp -> (exists w, qp_feasible G h w) ->
  qp Q_mat c G h = qp_exact Q_mat c G h.
Proof.
  intros Hqp Hw. apply (qp_minimizer_unique c G _ _ h).
  - apply Hqp, Hw.
  - apply qp_exact_solver, Hw.
Qed.

(** The closed form where the nominal velocity breaks the constraint. *)
Lemma qp_exact_active (u : arr3) (G : arr2) (h : R) :
  ~ qp_feasible G h (head2 u) ->
  qp_exact Q_mat (c_mat u) G h
    = sub2 (head2 u) (scale2 ((dot2 G (head2 u) - h) / sumsq2 G) G).
Proof.
  intros Hn. unfold qp_exact. rewrite c_mat_half.
  destruct (Rle_dec (dot2 G (head2 u)) h) as [Hin | _]; [contradiction | reflexivity].
Qed.

Lemma qp_active_boundary (u : arr3) (G : arr2) (h : R) :
  (exists w, qp_feasible G h w) -> ~ qp_feasible G h (head2 u) ->
  0 < sumsq2 G /\ 0 < (dot2 G (head2 u) - h) / sumsq2 G /\
  dot2 G (qp_exact Q_mat (c_mat u) G h) = h.
Proof.
  intros [w Hw] Hn. unfold qp_feasible in *.
  assert (Hg : 0 < sumsq2 G).
  { apply sumsq2_pos. intros ->. unfold dot2, zeros2 in *. cbn [fst2 snd2] in *. lra. }
  split; [exact Hg |]. split; [apply Rdiv_lt_0_compat; lra |].
  rewrite (qp_exact_active u G h Hn).
  unfold dot2, sub2, scale2, sumsq2 in *. cbn [fst2 snd2] in *. field. lra.
Qed.

(** X10: the problem that lines 80-91 hand to the solver has exactly one
    solution, so every exact solver returns the same velocity, the
    projection of the nominal velocity on the half plane [H v <= b]: the
    nominal velocity itself where it satisfies the constraint, and
    otherwise the point [u - l H] with [l > 0] on the boundary
    [H v = b]. *)
Theorem safety_filter_is_the_projection
    (qp : mat2 -> arr2 -> arr2 -> R -> arr2) (u p : arr3) :
  qp_solver qp ->
  vector_to_obstacle p <> zeros2 ->
  let v := qp Q_mat (c_mat u) (H p) (b p) in
  v = qp_exact Q_mat (c_mat u) (H p) (b p) /\
  qp_feasible (H p) (b p) v /\
  (qp_feasible (H p) (b p) (head2 u) -> v = head2 u) /\
  (~ qp_feasible (H p) (b p) (head2 u) ->
     dot2 (H p) v = b p /\
     0 < (dot2 (H p) (head2 u) - b p) / sumsq2 (H p) /\
     v = sub2 (head2 u)
           (scale2 ((dot2 (H p) (head2 u) - b p) / sumsq2 (H p)) (H p))).
Proof.
  intros Hqp Hd v. subst v.
  assert (Hw := feasible_off_centre p Hd).
  rewrite (qp_solver_exact qp _ _ _ Hqp Hw).
  split; [reflexivity |]. split; [apply (qp_exact_solver _ _ _ Hw) |].
  split.
  - intros Hin. apply (qp_inactive qp_exact u _ _ qp_exact_solver Hin).
  - intros Hn. destruct (qp_active_boundary u _ _ Hw Hn) as (_ & Hl & Hb).
    split; [exact Hb |]. split; [exact Hl | apply qp_exact_active, Hn].
Qed.

Lemma vector_to_obstacle_init : vector_to_obstacle init_state <> zeros2.
Proof.
  unfold vector_to_obstacle, sub2, head2, init_state, obstacle_state, zeros2.
  cbn [at0 at1 fst2 snd2]. intros E. injection E as E0 _. lra.
Qed.

Lemma safety_filter_is_the_projection_witness :
  let u := nominal init_state in
  let p := init_state in
  let v := qp_exact Q_mat (c_mat u) (H p) (b p) in
  v = qp_exact Q_mat (c_mat u) (H p) (b p) /\
  qp_feasible (H p) (b p) v /\
  (qp_feasible (H p) (b p) (head2 u) -> v = head2 u) /\
  (~ qp_feasible (H p) (b p) (head2 u) ->
     dot2 (H p) v = b p /\
     0 < (dot2 (H p) (head2 u) - b p) / sumsq2 (H p) /\
     v = sub2 (head2 u)
           (scale2 ((dot2 (H p) (head2 u) - b p) / sumsq2 (H p)) (H p))).
Proof.
  apply (safety_filter_is_the_projection qp_exact (nominal init_state) init_state).
  - exact qp_exact_solver.
  - exact vector_to_obstacle_init.
Defined.

(** X11: away from the centre of the obstacle, the velocity an exact
    solver returns satisfies the barrier condition
    [2 Delta . v >= - gamma h(p)], whatever the nominal input; at the
    centre itself no velocity satisfies the constraint the program
    builds, so the problem has no solution there. *)
Theorem filtered_velocity_meets_barrier_condition
    (qp : mat2 -> arr2 -> arr2 -> R -> arr2) (u p : arr3) :
  qp_solver qp ->
  vector_to_obstacle p <> zeros2 ->
  - gamma * barrier p <= 2 * dot2 (vector_to_obstacle p) (head2 (qp_input qp u p)) /\
  (forall theta v,
     ~ qp_feasible (H (A3 (at0 obstacle_state) (at1 obstacle_state) theta))
                   (b (A3 (at0 obstacle_state) (at1 obstacle_state) theta)) v).
Proof.
  intros Hqp Hd. split.
  - destruct (Hqp (c_mat u) (H p) (b p) (feasible_off_centre p Hd)) as [Hf _].
    unfold qp_input, head2. cbn [at0 at1].
    destruct (qp Q_mat (c_mat u) (H p) (b p)) as [v0 v1].
    unfold qp_feasible, H, b, barrier, dot2, scale2 in *. cbn [fst2 snd2] in *. lra.
  - intros theta v.
    unfold qp_feasible, H, b, vector_to_obstacle, sub2, scale2, head2, dot2, sumsq2,
      obstacle_state, gamma.
    rewrite d_safe_value. cbn [fst2 snd2 at0 at1]. lra.
Qed.

Lemma filtered_velocity_meets_barrier_condition_witness :
  - gamma * barrier init_state
    <= 2 * dot2 (vector_to_obstacle init_state)
             (head2 (qp_input qp_exact (nominal init_state) init_state)) /\
  (forall theta v,
     ~ qp_feasible (H (A3 (at0 obstacle_state) (at1 obstacle_state) theta))
                   (b (A3 (at0 obstacle_state) (at1 obstacle_state) theta)) v).
Proof.
  apply (filtered_velocity_meets_barrier_condition qp_exact (nominal init_state) init_state).
  - exact qp_exact_solver.
  - exact vector_to_obstacle_init.
Defined.

Lemma norm2_lt_sumsq (a : arr2) (n : R) : norm2 a < n -> sumsq2 a < n * n.
Proof.
  intros Hn. assert (H0 := norm2_nonneg a). rewrite <- (norm2_sqr a). nra.
Qed.

(** X12: the limiter can undo the filter.  Where the barrier bound [b]
    is positive and the nominal velocity breaks the constraint, an exact
    solver returns a velocity on the boundary [H v = b], slower than
    [v_trans_max]; if its [vy] is positive the limiter stretches it back
    to speed [v_trans_max], and the input that is applied breaks the
    constraint. *)
Theorem limiter_breaks_an_active_constraint
    (qp : mat2 -> arr2 -> arr2 -> R -> arr2) (p : arr3) :
  let q := qp_input qp (nominal p) p in
  qp_solver qp ->
  0 < b p ->
  ~ qp_feasible (H p) (b p) (head2 (nominal p)) ->
  0 < at1 q ->
  exists ci, limit_input q = Some ci /\
    dot2 (H p) (head2 q) = b p /\
    norm2 (head2 q) < v_trans_max /\
    ~ qp_feasible (H p) (b p) (head2 ci).
Proof.
  intros q Hqp Hb Hn Hvy. subst q.
  assert (Hw : exists w, qp_feasible (H p) (b p) w).
  { exists zeros2. unfold qp_feasible, dot2, zeros2. cbn [fst2 snd2]. lra. }
  unfold qp_input in *. rewrite (qp_solver_exact qp _ _ _ Hqp Hw) in *.
  destruct (qp_active_boundary (nominal p) _ _ Hw Hn) as (Hg & Hl & Hbd).
  assert (Hu := norm2_lt_sumsq _ _ (nominal_speed_lt p)).
  assert (Hv := qp_exact_active (nominal p) (H p) (b p) Hn).
  set (l := (dot2 (H p) (head2 (nominal p)) - b p) / sumsq2 (H p)) in *.
  set (v := qp_exact Q_mat (c_mat (nominal p)) (H p) (b p)) in *.
  cbn [at1 head2 at0] in *.
  assert (Hsv : sumsq2 v < 0.5 * 0.5).
  { destruct (H p) as [g0 g1], (head2 (nominal p)) as [u0 u1].
    rewrite Hv in Hbd |- *. clearbody l. clear Hv.
    unfold v_trans_max, sumsq2, dot2, sub2, scale2 in *. cbn [fst2 snd2] in *.
    assert (C : l * (g0 * (u0 - l * g0) + g1 * (u1 - l * g1)) = l * b p)
      by (rewrite Hbd; reflexivity).
    assert (D : 0 < l * b p) by (apply Rmult_lt_0_compat; assumption).
    assert (E : 0 < l * l * (g0 ^ 2 + g1 ^ 2)) by (apply Rmult_lt_0_compat; nra).
    nra. }
  clearbody v. destruct v as [v0 v1]. cbn [fst2 snd2] in *.
  assert (Hnv : norm2 (A2 v0 v1) < 0.5) by (apply norm2_lt; [lra | exact Hsv]).
  assert (Hpos : 0 < norm2 (A2 v0 v1)) by (apply norm2_pos; cbn [snd2]; lra).
  rewrite (limit_input_scaling v0 v1 Hvy). eexists. split; [reflexivity |].
  split; [exact Hbd |]. split; [exact Hnv |].
  cbn [head2 at0 at1]. unfold qp_feasible, dot2 in *. cbn [fst2 snd2] in *.
  assert (Hf : 0.5 / norm2 (A2 v0 v1) * norm2 (A2 v0 v1) = 0.5) by (field; lra).
  set (f := 0.5 / norm2 (A2 v0 v1)) in *.
  assert (Hf1 : 1 < f) by nra.
  assert (Hfb : b p < f * b p) by nra.
  assert (Hfv : f * (fst2 (H p) * v0 + snd2 (H p) * v1) = f * b p)
    by (rewrite Hbd; reflexivity).
  intros Hle. unfold head2 in Hle. cbn [fst2 snd2 at0 at1] in Hle.
  clearbody f. clear Hf Hn Hw Hv. nra.
Qed.

(** A state just outside the safe distance, left of the obstacle. *)
Lemma K_lower (r : R) : 2.8 <= r <= 3 -> 0.05 <= K r.
Proof.
  intros [Hlo Hhi]. destruct (K_bounds r ltac:(lra)) as [Hk _].
  unfold beta, v_trans_max in Hk.
  assert (Hd : 0 < (1 + 5 * r) * (r + 1e-10)) by (apply Rmult_lt_0_compat; lra).
  assert (Hx : r / ((1 + 5 * r) * (r + 1e-10)) * ((1 + 5 * r) * (r + 1e-10)) = r)
    by (field; lra).
  set (D := (1 + 5 * r) * (r + 1e-10)) in *. set (x := r / D) in *.
  assert (HD : D <= 49.6) by (unfold D; nra).
  assert (Hx0 : 0 <= x) by (apply Rmult_le_pos; [lra | left; apply Rinv_0_lt_compat; lra]).
  assert (x * D <= x * 49.6) by (apply Rmult_le_compat_l; lra).
  lra.
Qed.

Lemma error_near_obstacle : error (A3 (-0.72) 0 0) = A3 2.72 1 0.
Proof.
  unfold error, sub3, desired_state. cbn [at0 at1 at2].
  replace (0 - 0) with 0 by ring. rewrite wrap_angle_0. f_equal; lra.
Qed.

Lemma error_norm_near_obstacle : 2.8 <= error_norm (A3 (-0.72) 0 0) <= 3.
Proof.
  unfold error_norm. rewrite error_near_obstacle. split.
  - apply norm2_ge; [lra |]. unfold sumsq2, head2; simpl. lra.
  - left. apply norm2_lt; [lra |]. unfold sumsq2, head2; simpl. lra.
Qed.

Lemma H_near_obstacle : H (A3 (-0.72) 0 0) = A2 1.44 0.
Proof.
  unfold H, vector_to_obstacle, sub2, scale2, head2, obstacle_state.
  cbn [at0 at1 fst2 snd2]. f_equal; lra.
Qed.

Lemma b_near_obstacle : b (A3 (-0.72) 0 0) = 0.12879.
Proof.
  unfold b, vector_to_obstacle, sub2, sumsq2, head2, obstacle_state, gamma.
  rewrite d_safe_value. cbn [at0 at1 fst2 snd2]. lra.
Qed.

Lemma nominal_near_obstacle :
  head2 (nominal (A3 (-0.72) 0 0))
    = A2 (K (error_norm (A3 (-0.72) 0 0)) * 2.72) (K (error_norm (A3 (-0.72) 0 0)) * 1).
Proof. unfold nominal. rewrite error_near_obstacle. reflexivity. Qed.

Lemma nominal_breaks_constraint_near_obstacle :
  ~ qp_feasible (H (A3 (-0.72) 0 0)) (b (A3 (-0.72) 0 0)) (head2 (nominal (A3 (-0.72) 0 0))).
Proof.
  assert (Hk := K_lower _ error_norm_near_obstacle).
  unfold qp_feasible. rewrite H_near_obstacle, b_near_obstacle, nominal_near_obstacle.
  unfold dot2. cbn [fst2 snd2]. lra.
Qed.

Lemma limiter_breaks_an_active_constraint_witness :
  exists ci,
    limit_input (qp_input qp_exact (nominal (A3 (-0.72) 0 0)) (A3 (-0.72) 0 0)) = Some ci /\
    dot2 (H (A3 (-0.72) 0 0))
         (head2 (qp_input qp_exact (nominal (A3 (-0.72) 0 0)) (A3 (-0.72) 0 0)))
      = b (A3 (-0.72) 0 0) /\
    norm2 (head2 (qp_input qp_exact (nominal (A3 (-0.72) 0 0)) (A3 (-0.72) 0 0)))
      < v_trans_max /\
    ~ qp_feasible (H (A3 (-0.72) 0 0)) (b (A3 (-0.72) 0 0)) (head2 ci).
Proof.
  apply (limiter_breaks_an_active_constraint qp_exact (A3 (-0.72) 0 0)).
  - exact qp_exact_solver.
  - rewrite b_near_obstacle. lra.
  - exact nominal_breaks_constraint_near_obstacle.
  - unfold qp_input. cbn [at1].
    rewrite (qp_exact_active _ _ _ nominal_breaks_constraint_near_obstacle).
    rewrite H_near_obstacle, nominal_near_obstacle.
    assert (Hk := K_lower _ error_norm_near_obstacle).
    unfold sub2, scale2. cbn [fst2 snd2]. lra.
Defined.

(** ** Free space *)

Lemma dot2_le_norms (a c : arr2) : dot2 a c <= norm2 a * norm2 c.
Proof.
  assert (Ha := norm2_nonneg a). assert (Hc := norm2_nonneg c).
  assert (Sa := norm2_sqr a). assert (Sc := norm2_sqr c).
  destruct (Rle_lt_dec (dot2 a c) (norm2 a * norm2 c)) as [Hle | Hgt]; [exact Hle |].
  exfalso.
  assert (Hp : 0 <= norm2 a * norm2 c) by (apply Rmult_le_pos; assumption).
  assert (Hsq : (norm2 a * norm2 c) * (norm2 a * norm2 c) < dot2 a c * dot2 a c)
    by (apply Rmult_le_0_lt_compat; lra).
  replace (norm2 a * norm2 c * (norm2 a * norm2 c))
    with (norm2 a * norm2 a * (norm2 c * norm2 c)) in Hsq by ring.
  rewrite Sa, Sc in Hsq.
  destruct a as [a0 a1], c as [c0 c1]. unfold sumsq2, dot2 in Hsq. cbn [fst2 snd2] in Hsq.
  assert (L := pow2_ge_0 (a0 * c1 - a1 * c0)). nra.
Qed.

(** The nominal velocity meets the constraint wherever the distance to
    the obstacle centre is at most [gamma] times the barrier value. *)
Lemma nominal_feasible_far (p : arr3) :
  norm2 (vector_to_obstacle p) <= gamma * barrier p ->
  qp_feasible (H p) (b p) (head2 (nominal p)).
Proof.
  intros Hfar. unfold qp_feasible, b. fold (barrier p).
  assert (Hs := nominal_speed_lt p). unfold v_trans_max in Hs.
  assert (Hn := norm2_nonneg (head2 (nominal p))).
  assert (Hd := norm2_nonneg (vector_to_obstacle p)).
  assert (Hcs := dot2_le_norms (scale2 (-1) (vector_to_obstacle p)) (head2 (nominal p))).
  assert (Ho : norm2 (scale2 (-1) (vector_to_obstacle p)) = norm2 (vector_to_obstacle p)).
  { unfold norm2, sumsq2, scale2. cbn [fst2 snd2]. f_equal. ring. }
  rewrite Ho in Hcs.
  assert (Hm : norm2 (vector_to_obstacle p) * norm2 (head2 (nominal p))
               <= norm2 (vector_to_obstacle p) * 0.5)
    by (apply Rmult_le_compat_l; lra).
  unfold H, dot2, scale2 in *. cbn [fst2 snd2] in *. lra.
Qed.

(** X13: in free space, that is where the distance to the obstacle
    centre is at most [gamma] times the barrier value, with an exact
    solver, outside the goal tolerance and with the goal above the robot,
    the iteration completes and the input it applies is the unit vector
    from the robot to the goal times [v_trans_max], with no angular
    rate: the robot heads straight for the goal at full speed. *)
Theorem free_space_input_heads_for_goal
    (qp : mat2 -> arr2 -> arr2 -> R -> arr2) (it : nat) (s : sim) :
  let p := robot_state s in
  let r := error_norm p in
  qp_solver qp ->
  norm2 (vector_to_obstacle p) <= gamma * barrier p ->
  0.005 <= r ->
  at1 p < at1 desired_state ->
  exists s', loop_body qp it s = Next s' /\
    qp_input qp (nominal p) p = A3 (at0 (nominal p)) (at1 (nominal p)) 0 /\
    current_input s' =
      A3 (v_trans_max / r * (at0 desired_state - at0 p))
         (v_trans_max / r * (at1 desired_state - at1 p)) 0 /\
    robot_state s' = update_state p (current_input s').
Proof.
  intros p r Hqp Hfar Hr Hy.
  assert (Hq : qp_input qp (nominal p) p = A3 (at0 (nominal p)) (at1 (nominal p)) 0).
  { unfold qp_input.
    rewrite (qp_inactive qp (nominal p) _ _ Hqp (nominal_feasible_far p Hfar)).
    reflexivity. }
  assert (Hk : 0 < K r) by (apply K_pos; lra).
  assert (Hn := nominal_norm p). fold r in Hn.
  assert (Hvy : 0 < at1 (nominal p)).
  { unfold nominal, scale3, error, sub3. cbn [at0 at1 at2]. fold r.
    apply Rmult_lt_0_compat; lra. }
  assert (Hci : limit_input (qp_input qp (nominal p) p)
                = Some (A3 (v_trans_max / r * (at0 desired_state - at0 p))
                           (v_trans_max / r * (at1 desired_state - at1 p)) 0)).
  { rewrite Hq, (limit_input_scaling _ _ Hvy).
    change (A2 (at0 (nominal p)) (at1 (nominal p))) with (head2 (nominal p)).
    rewrite Hn. unfold nominal, scale3, error, sub3, v_trans_max. cbn [at0 at1 at2].
    fold r. f_equal. f_equal; field; lra. }
  exists (record_input it
            (A3 (v_trans_max / r * (at0 desired_state - at0 p))
                (v_trans_max / r * (at1 desired_state - at1 p)) 0)
            (record_state it s)).
  split; [| split; [exact Hq | split; reflexivity]].
  rewrite (loop_body_continue qp it s Hr). fold p. rewrite Hci. reflexivity.
Qed.

Lemma free_space_init : norm2 (vector_to_obstacle init_state) <= gamma * barrier init_state.
Proof.
  rewrite barrier_init. unfold gamma. left. apply norm2_lt; [lra |].
  unfold vector_to_obstacle, sub2, sumsq2, head2, init_state, obstacle_state.
  cbn [at0 at1 fst2 snd2]. lra.
Qed.

Lemma free_space_input_heads_for_goal_witness :
  exists s', loop_body qp_exact 0 (init_sim init_state sim_iter) = Next s' /\
    qp_input qp_exact (nominal init_state) init_state
      = A3 (at0 (nominal init_state)) (at1 (nominal init_state)) 0 /\
    current_input s' =
      A3 (v_trans_max / error_norm init_state * (at0 desired_state - at0 init_state))
         (v_trans_max / error_norm init_state * (at1 desired_state - at1 init_state)) 0 /\
    robot_state s' = update_state init_state (current_input s').
Proof.
  apply (free_space_input_heads_for_goal qp_exact 0 (init_sim init_state sim_iter)).
  - exact qp_exact_solver.
  - exact free_space_init.
  - cbn [init_sim robot_state]. destruct error_norm_init. lra.
  - cbn. lra.
Defined.

(** ** Rows outside the loop indices *)

Lemma record_state_other (it j : nat) (s : sim) :
  j <> it ->
  state_history (record_state it s) !! j = state_history s !! j /\
  goal_history (record_state it s) !! j = goal_history s !! j /\
  input_history (record_state it s) !! j = input_history s !! j /\
  error_history (record_state it s) !! j = error_history s !! j /\
  h_history (record_state it s) !! j = h_history s !! j.
Proof.
  intros Hj. sim_fields. rewrite !list_lookup_insert_ne by auto. auto.
Qed.

Lemma record_input_other (it j : nat) (ci : arr3) (s : sim) :
  j <> it ->
  state_history (record_input it ci s) !! j = state_history s !! j /\
  goal_history (record_input it ci s) !! j = goal_history s !! j /\
  input_history (record_input it ci s) !! j = input_history s !! j /\
  error_history (record_input it ci s) !! j = error_history s !! j /\
  h_history (record_input it ci s) !! j = h_history s !! j.
Proof.
  intros Hj. sim_fields. rewrite !list_lookup_insert_ne by auto. auto.
Qed.

(** X14: the loop writes only the rows of the indices it runs over: a
    row whose index is not among them is the same in every buffer after
    the loop as before, however the loop ends.  In particular the rows
    of earlier iterations are never overwritten by later ones. *)
Theorem loop_writes_only_its_rows
    (qp : mat2 -> arr2 -> arr2 -> R -> arr2) (its : list nat) (j : nat) (s : sim) :
  j ∉ its ->
  let s' := snd (for_range qp its s) in
  state_history s' !! j = state_history s !! j /\
  goal_history s' !! j = goal_history s !! j /\
  input_history s' !! j = input_history s !! j /\
  error_history s' !! j = error_history s !! j /\
  h_history s' !! j = h_history s !! j.
Proof.
  revert s. induction its as [| it rest IH]; intros s Hj; [cbn; auto |].
  apply not_elem_of_cons in Hj as [Hne Hrest]. cbv zeta. cbn [for_range].
  destruct (loop_body qp it s) as [s1 | s1 | s1] eqn:E.
  - rewrite (loop_body_stop qp it s s1 (or_introl E)). cbn [snd].
    apply record_state_other, Hne.
  - apply loop_body_Next in E as (_ & ci & _ & ->).
    destruct (IH (record_input it ci (record_state it s)) Hrest) as (A & B & C & D & F).
    destruct (record_input_other it j ci (record_state it s) Hne) as (A1 & B1 & C1 & D1 & F1).
    destruct (record_state_other it j s Hne) as (A2' & B2 & C2 & D2 & F2).
    cbv zeta in A, B, C, D, F.
    rewrite A, B, C, D, F, A1, B1, C1, D1, F1. auto.
  - rewrite (loop_body_stop qp it s s1 (or_intror E)). cbn [snd].
    apply record_state_other, Hne.
Qed.

Lemma loop_writes_only_its_rows_witness :
  let s' := snd (for_range qp_exact (seq 1 2) (init_sim init_state 3)) in
  state_history s' !! 0%nat = state_history (init_sim init_state 3) !! 0%nat /\
  goal_history s' !! 0%nat = goal_history (init_sim init_state 3) !! 0%nat /\
  input_history s' !! 0%nat = input_history (init_sim init_state 3) !! 0%nat /\
  error_history s' !! 0%nat = error_history (init_sim init_state 3) !! 0%nat /\
  h_history s' !! 0%nat = h_history (init_sim init_state 3) !! 0%nat.
Proof.
  apply (loop_writes_only_its_rows qp_exact (seq 1 2) 0 (init_sim init_state 3)).
  cbn. intros Hin. apply elem_of_cons in Hin as [Hc | Hin]; [lia |].
  apply elem_of_cons in Hin as [Hc | Hin]; [lia |]. inversion Hin.
Defined.

(** ** The wrap of an angle *)

Lemma fmod_period (x m : R) (k : Z) : 0 < m -> fmod (x + IZR k * m) m = fmod x m.
Proof.
  intros Hm. unfold fmod.
  assert (Hq : (x + IZR k * m) / m = x / m + IZR k) by (field; lra).
  rewrite Hq.
  destruct (base_Int_part (x / m)) as [Hlo Hhi].
  assert (Hi : Int_part (x / m + IZR k) = (Int_part (x / m) + k)%Z).
  { symmetry. apply Int_part_spec. rewrite plus_IZR. lra. }
  rewrite Hi, plus_IZR. ring.
Qed.

(** X15: the heading wrap of lines 70 and 115 depends only on the angle
    modulo a full turn, is the identity on the interval closed at [- PI]
    and open at [PI], and is idempotent. *)
Theorem wrap_angle_periodic_idempotent (a : R) (k : Z) :
  wrap_angle (a + IZR k * (2 * PI)) = wrap_angle a /\
  wrap_angle (wrap_angle a) = wrap_angle a /\
  (wrap_angle a = a <-> - PI <= a < PI).
Proof.
  assert (Hpi := PI_RGT_0).
  split; [| split].
  - unfold wrap_angle.
    replace (a + IZR k * (2 * PI) + PI) with (a + PI + IZR k * (2 * PI)) by ring.
    rewrite fmod_period by lra. reflexivity.
  - apply wrap_angle_id, wrap_angle_range.
  - split.
    + intros E. rewrite <- E. apply wrap_angle_range.
    + apply wrap_angle_id.
Qed.
